(** * Spin-direction refinement notebooks: a shallow embedding

    The two residual functions of the spin-direction notebook, the mask
    construction, the optimisation driver and the co-refinement's [mpdf]
    function, over the real numbers.  Arrays are lists, the [species]
    dictionary is a [gmap], the notebook's global objects ([mstr], [mc],
    [svec], [upMask], [downMask]) are the fields of one record that every
    function threads, and a Python exception is [None]. *)

From Stdlib Require Import Reals Lra Lia List.
From stdpp Require Import base option list gmap strings.

Open Scope R_scope.

#[local] Set Warnings "-clear-no-such-hyp".

(** * Part I: the embedding *)

(** ** Three-component vectors (rows of an (N,3) numpy array) *)

Module Vec3.

Record t : Type := mk { x : R; y : R; z : R }.

(** Unary minus, [-v]. *)
Definition opp (v : t) : t := mk (- x v) (- y v) (- z v).

(** One row of the broadcast difference [spins - svec]. *)
Definition sub (u v : t) : t := mk (x u - x v) (y u - y v) (z u - z v).

Definition scale (c : R) (v : t) : t := mk (c * x v) (c * y v) (c * z v).

(** [np.linalg.norm] of one row. *)
Definition norm (v : t) : R := sqrt (x v * x v + y v * y v + z v * z v).

End Vec3.

Abbreviation vec3 := Vec3.t.

#[global] Instance Rlt_decision (a b : R) : Decision (a < b) := Rlt_dec a b.

(** ** The direction vector

    [np.array([np.sin(th)*np.cos(phi), np.sin(th)*np.sin(phi), np.cos(th)])],
    the same expression in both residual functions and for [svec]. *)

Definition newsvec (th phi : R) : vec3 :=
  Vec3.mk (sin th * cos phi) (sin th * sin phi) (cos th).

(** ** numpy operations on one-dimensional arrays *)

(** [oscale,pscale,damp,th,phi = p]: unpacking raises unless [p] has exactly
    five entries. *)
Definition unpack5 (p : list R) : option (R * R * R * R * R) :=
  match p with
  | [oscale; pscale; damp; th; phi] => Some (oscale, pscale, damp, th, phi)
  | _ => None
  end.

(** [a - b] on 1-D arrays: elementwise on equal shapes, a one-element operand
    is broadcast, any other pair of shapes raises. *)
Definition np_sub (a b : list R) : option (list R) :=
  if decide (length a = length b) then Some (zip_with Rminus a b)
  else match a, b with
       | [a0], _ => Some ((fun bi => a0 - bi) <$> b)
       | _, [b0] => Some ((fun ai => ai - b0) <$> a)
       | _, _ => None
       end.

(** [arr[mask] = v] for a boolean [mask] over the rows of [arr]: the rows
    where the mask holds become [v], the others stay; a mask whose length is
    not the number of rows raises. *)
Definition mask_assign (arr : list vec3) (mask : list bool) (v : vec3)
  : option (list vec3) :=
  if decide (length mask = length arr)
  then Some (zip_with (fun (m : bool) row => if m then v else row) mask arr)
  else None.

(** [np.random.uniform(low, high)] from one unit draw [xi] in [0,1). *)
Definition uniform (low high xi : R) : R := low + (high - low) * xi.

(** ** The objects of the notebooks *)

(** A [MagSpecies]: its basis vector, its propagation vector, the positions of
    its magnetic atoms and its label. *)
Record MagSpecies : Type := mkSpecies {
  basisvecs : vec3;
  kvecs : vec3;
  magatoms : list vec3;
  label : string
}.

(** A [MagStructure]: the dictionary of its species and the arrays derived
    from them. *)
Record MagStructure : Type := mkStructure {
  species : gmap string MagSpecies;
  atoms : list vec3;
  spins : list vec3
}.

(** An [MPDFcalculator]: the three scalars the residuals set, and the range
    the notebook fixes once. *)
Record MPDFcalculator : Type := mkCalculator {
  ordScale : R;
  paraScale : R;
  dampRate : R;
  rmin : R;
  rmax : R
}.

(** The notebook's global namespace.  [mc] was built as
    [MPDFcalculator(mstr)], so [mc.magstruc] and [mstr] are one object: the
    calculator reads the field [mstr] of this record. *)
Record Notebook : Type := mkNotebook {
  mstr : MagStructure;
  mc : MPDFcalculator;
  svec : vec3;
  upMask : list bool;
  downMask : list bool
}.

(** The library the notebooks call ([diffpy.mpdf]), which is not part of the
    repository: the phase factor that the propagation-vector rule gives a
    site, and the calculator's [calc(both=True)], a tuple of three arrays
    computed from the calculator's own attributes and the structure's atom
    and spin arrays. *)
Class Diffpy : Type := {
  phasefac : vec3 -> vec3 -> R;
  calc_both : MPDFcalculator -> list vec3 -> list vec3
              -> list R * list R * list R
}.

(** [scipy.optimize.least_squares] as the residual function sees it: a solver
    run asks for the residual at one parameter vector after the other, each
    choice depending on the residuals it got back, and ends with its
    converged vector. *)
Inductive Solver : Type :=
| Converged (xopt : list R)
| Evaluate (p : list R) (next : list R -> Solver).

Class Scipy : Type := {
  least_squares : list R -> list R -> list R -> Solver
}.

Definition set_basisvecs (v : vec3) (sp : MagSpecies) : MagSpecies :=
  mkSpecies v (kvecs sp) (magatoms sp) (label sp).

Definition set_species (m : gmap string MagSpecies) (ms : MagStructure)
  : MagStructure := mkStructure m (atoms ms) (spins ms).

Definition set_spins (s : list vec3) (ms : MagStructure) : MagStructure :=
  mkStructure (species ms) (atoms ms) s.

Definition set_scalars (oscale pscale damp : R) (c : MPDFcalculator)
  : MPDFcalculator := mkCalculator oscale pscale damp (rmin c) (rmax c).

(** [MagStructure()] and [mstr.loadSpecies(msp)]. *)
Definition MagStructure_new : MagStructure := mkStructure ∅ [] [].

Definition loadSpecies (msp : MagSpecies) (ms : MagStructure) : MagStructure :=
  set_species (<[label msp := msp]> (species ms)) ms.

Section Library.
Context `{D : Diffpy}.

(** Modelled from the spec: the spin generation of [diffpy.mpdf] is not
    under src/.  Every site's spin comes from the species' propagation-vector
    and basis-vector rules: the spin of a site is the species' basis vector
    times the phase factor of the propagation vector at the site. *)
Definition species_spins (sp : MagSpecies) : list vec3 :=
  (fun r => Vec3.scale (phasefac (kvecs sp) r) (basisvecs sp))
    <$> magatoms sp.

(** Modelled from the spec: [makeSpins] of [diffpy.mpdf] is not under src/.
    It regenerates every site's spin, species by species, and stores the
    result as the structure's spin array. *)
Definition makeSpins (ms : MagStructure) : MagStructure :=
  set_spins (concat ((fun kv => species_spins kv.2)
                       <$> map_to_list (species ms))) ms.

(** Modelled from the spec: [makeAll] of [diffpy.mpdf] is not under src/.
    It recomputes all derived state of the container, the atom array
    ([makeAtoms]) and the spin array ([makeSpins]), from its constituent
    species. *)
Definition makeAtoms (ms : MagStructure) : MagStructure :=
  mkStructure (species ms)
              (concat ((fun kv => magatoms kv.2)
                         <$> map_to_list (species ms)))
              (spins ms).

Definition makeAll (ms : MagStructure) : MagStructure :=
  makeSpins (makeAtoms ms).

(** [mc.calc(both=True)] on the notebook's current objects. *)
Definition mc_calc (w : Notebook) : list R * list R * list R :=
  calc_both (mc w) (atoms (mstr w)) (spins (mstr w)).

(** [mc.calc(both=True)[2]]. *)
Definition calc2 (w : Notebook) : list R := (mc_calc w).2.

(** *** The cell that makes the magnetic structure

    [sites] stands for the magnetic atoms that [MagSpecies] finds in the
    loaded structure, [c0] for the calculator as [MPDFcalculator(mstr)]
    leaves it after [rmin] and [rmax] are set, [xi1] and [xi2] for the two
    unit draws behind [th0] and [phi0].  The masks do not exist yet. *)
Definition make_structure (sites : list vec3) (c0 : MPDFcalculator)
    (xi1 xi2 : R) : Notebook :=
  let th0 := acos (uniform (-1) 1 xi1) in
  let phi0 := uniform (- PI) PI xi2 in
  let svec := newsvec th0 phi0 in
  let msp := mkSpecies svec (Vec3.mk (1/2) (1/2) (1/2)) sites "0" in
  let mstr := makeAll (loadSpecies msp MagStructure_new) in
  mkNotebook mstr c0 svec [] [].

(** *** The regeneration residual (first [residual] of the notebook) *)
Definition residual_regen (p ydata : list R) (w : Notebook)
  : option (list R * Notebook) :=
  '(oscale, pscale, damp, th, phi) ← unpack5 p;
  let newsvec := newsvec th phi in
  sp ← species (mstr w) !! "0";
  let mstr1 :=
    set_species (<["0" := set_basisvecs newsvec sp]> (species (mstr w)))
                (mstr w) in
  let mstr2 := makeSpins mstr1 in
  let mc1 := set_scalars oscale pscale damp (mc w) in
  let w' := mkNotebook mstr2 mc1 (svec w) (upMask w) (downMask w) in
  r ← np_sub ydata (calc2 w');
  Some (r, w').

(** *** The cell that makes the masks *)
Definition make_masks (w : Notebook) : Notebook :=
  let up := (fun s => bool_decide (Vec3.norm (Vec3.sub s (svec w)) < 1/10))
              <$> spins (mstr w) in
  let down := negb <$> up in
  mkNotebook (mstr w) (mc w) (svec w) up down.

(** *** The masked residual (second [residual] of the notebook) *)
Definition residual_masked (p ydata : list R) (w : Notebook)
  : option (list R * Notebook) :=
  '(oscale, pscale, damp, th, phi) ← unpack5 p;
  let newsvec := newsvec th phi in
  s1 ← mask_assign (spins (mstr w)) (upMask w) newsvec;
  s2 ← mask_assign s1 (downMask w) (Vec3.opp newsvec);
  let mstr2 := set_spins s2 (mstr w) in
  let mc1 := set_scalars oscale pscale damp (mc w) in
  let w' := mkNotebook mstr2 mc1 (svec w) (upMask w) (downMask w) in
  r ← np_sub ydata (calc2 w');
  Some (r, w').

(** The two notebook cells define the same name [residual]; [Path] says which
    definition is in force. *)
Inductive Path : Type := Regeneration | Masked.

Definition residual (path : Path) : list R -> list R -> Notebook
                                    -> option (list R * Notebook) :=
  match path with
  | Regeneration => residual_regen
  | Masked => residual_masked
  end.

(** *** The co-refinement's [mpdf] function *)
Definition mpdf (parascale ordscale damp : R) (w : Notebook)
  : list R * Notebook :=
  let mc1 := set_scalars ordscale parascale damp (mc w) in
  let mstr1 := makeAll (mstr w) in
  let w' := mkNotebook mstr1 mc1 (svec w) (upMask w) (downMask w) in
  let dr := calc2 w' in
  (dr, w').

(** *** The optimisation driver *)

(** [p0 = [0.1,0.1,0.1,np.arccos(np.random.uniform(-1,1)),
    np.random.uniform(-np.pi,np.pi)]] from its two unit draws. *)
Definition p0 (xi1 xi2 : R) : list R :=
  [1/10; 1/10; 1/10; acos (uniform (-1) 1 xi1); uniform (- PI) PI xi2].

(** [bounds=[[0,0,0,0,-np.pi],[10,10,10,np.pi,np.pi]]]. *)
Definition lower_bounds : list R := [0; 0; 0; 0; - PI].
Definition upper_bounds : list R := [10; 10; 10; PI; PI].

(** The solver's run against the notebook: every residual evaluation acts on
    the state the previous one left. *)
Fixpoint run_solver (path : Path) (s : Solver) (d : list R) (w : Notebook)
  : option (list R * Notebook) :=
  match s with
  | Converged xopt => Some (xopt, w)
  | Evaluate p next =>
      '(r, w') ← residual path p d w;
      run_solver path (next r) d w'
  end.

(** The parameter vectors a run evaluates, in order. *)
Fixpoint evaluations (path : Path) (s : Solver) (d : list R) (w : Notebook)
  : list (list R) :=
  match s with
  | Converged _ => []
  | Evaluate p next =>
      p :: match residual path p d w with
           | Some (r, w') => evaluations path (next r) d w'
           | None => []
           end
  end.

(** [optimized = least_squares(residual,p0,bounds=...,args=(d,))] followed by
    [fit = mc.calc(both=True)[2]]. *)
Definition run_fit `{S : Scipy} (path : Path) (xi1 xi2 : R) (d : list R)
    (w : Notebook) : option (list R * list R * Notebook) :=
  '(optimized, w') ←
    run_solver path (least_squares (p0 xi1 xi2) lower_bounds upper_bounds) d w;
  let fit := calc2 w' in
  Some (optimized, fit, w').

End Library.

(** ** The printing, visualising and plotting cells *)

(** [arr[mask]] read with a boolean [mask] over the rows of [arr]: the rows
    where the mask holds, in order; a mask whose length is not the number of
    rows raises. *)
Fixpoint select_rows {A : Type} (mask : list bool) (arr : list A) : list A :=
  match mask, arr with
  | m :: mask', row :: arr' =>
      if m then row :: select_rows mask' arr' else select_rows mask' arr'
  | _, _ => []
  end.

Definition mask_select {A : Type} (arr : list A) (mask : list bool)
  : option (list A) :=
  if decide (length mask = length arr) then Some (select_rows mask arr)
  else None.

(** What the mask cell prints: [mstr.spins[upMask][:4]] and
    [mstr.spins[downMask][:4]]. *)
Definition print_masks (w : Notebook) : option (list vec3 * list vec3) :=
  up ← mask_select (spins (mstr w)) (upMask w);
  down ← mask_select (spins (mstr w)) (downMask w);
  Some (take 4 up, take 4 down).

(** One row of [visatoms + np.array([tx,ty,tz])]. *)
Definition vec3_add (u v : vec3) : vec3 :=
  Vec3.mk (Vec3.x u + Vec3.x v) (Vec3.y u + Vec3.y v) (Vec3.z u + Vec3.z v).

(** The atoms of the visualising cell: [uc = struc[:4].xyz], the
    concatenation of [uc] with three shifted copies, and
    [struc.lattice.cartesian], which maps every row by the lattice ([cartesian]
    stands for that map). *)
Definition visatoms (struc_xyz : list vec3) (cartesian : vec3 -> vec3)
  : list vec3 :=
  let uc := take 4 struc_xyz in
  let visatoms := uc in
  let visatoms :=
    visatoms
    ++ ((fun r => vec3_add r (Vec3.mk 0 0 1)) <$> visatoms)
    ++ ((fun r => vec3_add r (Vec3.mk 0 1 0)) <$> visatoms)
    ++ ((fun r => vec3_add r (Vec3.mk 0 0 1)) <$> visatoms) in
  cartesian <$> visatoms.

(** [a.min()] of a 1-D array; raises on an empty array. *)
Definition np_min (a : list R) : option R :=
  match a with
  | [] => None
  | a0 :: a' => Some (foldr Rmin a0 a')
  end.

(** [baseline = 1.1 * gobs.min()] of the co-refinement's plotting cell. *)
Definition baseline (gobs : list R) : option R :=
  m ← np_min gobs; Some (11/10 * m).

(** ** Vocabulary of the properties *)

(** The sites a boolean mask selects ([np.where(mask)]). *)
Definition mask_sites (mask : list bool) : gset nat :=
  list_to_set (filter (fun i => mask !! i = Some true)
                      (seq 0 (length mask))).

(** The site indices of a structure with [n] sites. *)
Definition all_sites (n : nat) : gset nat := list_to_set (seq 0 n).

(** With the range of the calculator [c], the calculated signal has [n]
    points, whatever the three scalars and the structure. *)
Definition fixed_grid `{D : Diffpy} (n : nat) (c : MPDFcalculator) : Prop :=
  forall oscale pscale damp a s,
    length (calc_both (set_scalars oscale pscale damp c) a s).2 = n.

(** The notebook states that residual evaluations lead to from [w0]. *)
Inductive reachable `{D : Diffpy} (path : Path) (w0 : Notebook)
  : Notebook -> Prop :=
| reach_start : reachable path w0 w0
| reach_eval w p d r w' :
    reachable path w0 w ->
    residual path p d w = Some (r, w') ->
    reachable path w0 w'.

(** What one masked evaluation writes: every row of the spin array by its
    mask, and the three scalars. *)
Definition masked_spins (mask : list bool) (v : vec3) : list vec3 :=
  (fun m : bool => if m then v else Vec3.opp v) <$> mask.

(** The state one masked evaluation at [(oscale,pscale,damp,th,phi)] leaves. *)
Definition masked_state (oscale pscale damp th phi : R) (w : Notebook)
  : Notebook :=
  mkNotebook (set_spins (masked_spins (upMask w) (newsvec th phi)) (mstr w))
             (set_scalars oscale pscale damp (mc w))
             (svec w) (upMask w) (downMask w).

(** The masks are as the mask cell makes them: one entry per site, and
    [downMask = ~upMask]. *)
Definition masked_ok (w : Notebook) : Prop :=
  length (upMask w) = length (spins (mstr w))
  /\ downMask w = negb <$> upMask w.

(** What one masked evaluation may touch: the spin array and the three
    scalars of the calculator. *)
Definition same_but_spins_and_scalars (w w' : Notebook) : Prop :=
  exists s oscale pscale damp,
    w' = mkNotebook (set_spins s (mstr w)) (set_scalars oscale pscale damp (mc w))
                    (svec w) (upMask w) (downMask w)
    /\ length s = length (spins (mstr w)).

(** The state one regeneration evaluation leaves when ['0'] names the species
    [sp]. *)
Definition regen_state `{D : Diffpy} (oscale pscale damp th phi : R)
    (sp : MagSpecies) (w : Notebook) : Notebook :=
  mkNotebook
    (makeSpins
       (set_species
          (<["0" := set_basisvecs (newsvec th phi) sp]> (species (mstr w)))
          (mstr w)))
    (set_scalars oscale pscale damp (mc w))
    (svec w) (upMask w) (downMask w).

(** The notebook is set up for a path: the species ['0'] is loaded, or the
    masks are made. *)
Definition ready (path : Path) (w : Notebook) : Prop :=
  match path with
  | Regeneration => is_Some (species (mstr w) !! "0")
  | Masked => masked_ok w
  end.

(** The state an evaluation at [(oscale,pscale,damp,th,phi)] leaves. *)
Definition state_after `{D : Diffpy} (path : Path)
    (oscale pscale damp th phi : R) (w : Notebook) : Notebook :=
  match path with
  | Regeneration =>
      match species (mstr w) !! "0" with
      | Some sp => regen_state oscale pscale damp th phi sp w
      | None => w
      end
  | Masked => masked_state oscale pscale damp th phi w
  end.

(** A solver run that only asks for residuals at five-entry vectors. *)
Inductive five_params : Solver -> Prop :=
| five_converged xopt : five_params (Converged xopt)
| five_evaluate oscale pscale damp th phi next :
    (forall r, five_params (next r)) ->
    five_params (Evaluate [oscale; pscale; damp; th; phi] next).

(** ** A toy antiferromagnet, for concrete evaluations

    Two sites one lattice step apart on a unit cubic lattice, the phase
    factor [cos (2 PI (k . r))] of a single propagation vector, and a
    calculator whose signal on a two-point grid reads the first spin. *)
Module Toy.

Definition sites : list vec3 := [Vec3.mk 0 0 0; Vec3.mk 1 0 0].

Definition first_spin (s : list vec3) : vec3 :=
  match s with
  | [] => Vec3.mk 0 0 0
  | s0 :: _ => s0
  end.

Definition diffpy : Diffpy := {|
  phasefac k r :=
    cos (2 * PI * (Vec3.x k * Vec3.x r + Vec3.y k * Vec3.y r
                   + Vec3.z k * Vec3.z r));
  calc_both c a s :=
    ([0; 1], [0; 0],
     [ordScale c * Vec3.x (first_spin s) + dampRate c;
      paraScale c * Vec3.z (first_spin s)])
|}.

Definition c0 : MPDFcalculator := mkCalculator 1 1 0 0 1.

(** The notebook after the structure cell, with [th0 = PI/2], [phi0 = 0]. *)
Definition start : Notebook :=
  make_structure (D := diffpy) sites c0 (1/2) (1/2).

(** A solver run in the manner of a two-point finite-difference scheme: the
    residual at [x0], then at [x0] with each coordinate in turn moved by
    [h], and [x0] returned as converged. *)
Definition probe (h : R) (i : nat) (x : list R) : list R :=
  alter (Rplus h) i x.

(** The step of the finite differences. *)
Definition step : R := 1 / 100000000.

Definition scipy (h : R) : Scipy := {|
  least_squares x0 lb ub :=
    Evaluate x0 (fun _ =>
    Evaluate (probe h 0 x0) (fun _ =>
    Evaluate (probe h 1 x0) (fun _ =>
    Evaluate (probe h 2 x0) (fun _ =>
    Evaluate (probe h 3 x0) (fun _ =>
    Evaluate (probe h 4 x0) (fun _ =>
    Converged x0))))))
|}.

(** A two-site notebook with mask A = {0} and mask B = {1}. *)
Definition two_site : Notebook :=
  mkNotebook (mkStructure ∅ [Vec3.mk 0 0 0; Vec3.mk 1 0 0]
                          [Vec3.mk 1 0 0; Vec3.mk (-1) 0 0])
             c0 (Vec3.mk 1 0 0) [true; false] [false; true].

End Toy.

(** * Part II: properties *)

Module Vec3Facts.
Import Vec3.

Lemma eq_intro (u v : t) : x u = x v -> y u = y v -> z u = z v -> u = v.
Proof. destruct u, v; simpl; intros -> -> ->; reflexivity. Qed.

Lemma scale_1 v : scale 1 v = v.
Proof. apply eq_intro; simpl; ring. Qed.

Lemma scale_m1 v : scale (-1) v = opp v.
Proof. apply eq_intro; simpl; ring. Qed.

Lemma sub_diag v : sub v v = mk 0 0 0.
Proof. apply eq_intro; simpl; ring. Qed.

Lemma norm_zero : norm (mk 0 0 0) = 0.
Proof.
  unfold norm; simpl.
  replace (0 * 0 + 0 * 0 + 0 * 0) with 0 by ring. apply sqrt_0.
Qed.

Lemma norm_scale c v : norm (scale c v) = Rabs c * norm v.
Proof.
  unfold norm; simpl.
  replace (c * x v * (c * x v) + c * y v * (c * y v) + c * z v * (c * z v))
    with (c * c * (x v * x v + y v * y v + z v * z v)) by ring.
  rewrite sqrt_mult_alt by nra.
  replace (c * c) with (Rsqr c) by reflexivity.
  rewrite sqrt_Rsqr_abs. reflexivity.
Qed.

End Vec3Facts.

Lemma newsvec_sqnorm th phi :
  Vec3.x (newsvec th phi) * Vec3.x (newsvec th phi)
  + Vec3.y (newsvec th phi) * Vec3.y (newsvec th phi)
  + Vec3.z (newsvec th phi) * Vec3.z (newsvec th phi) = 1.
Proof.
  simpl.
  pose proof (sin2_cos2 th) as Ht. pose proof (sin2_cos2 phi) as Hp.
  unfold Rsqr in Ht, Hp.
  replace (sin th * cos phi * (sin th * cos phi)
           + sin th * sin phi * (sin th * sin phi) + cos th * cos th)
    with (sin th * sin th * (sin phi * sin phi + cos phi * cos phi)
          + cos th * cos th) by ring.
  rewrite Hp. lra.
Qed.

Lemma newsvec_norm th phi : Vec3.norm (newsvec th phi) = 1.
Proof. unfold Vec3.norm. rewrite newsvec_sqnorm. apply sqrt_1. Qed.

(** C3: for every polar angle in [0, PI] and azimuth in [-PI, PI] the
    direction vector is (sin th cos phi, sin th sin phi, cos th) and its
    Euclidean norm is exactly 1 over the reals, hence within 1e-10 of 1. *)
Theorem newsvec_unit (th phi : R) :
  0 <= th <= PI -> - PI <= phi <= PI ->
  newsvec th phi = Vec3.mk (sin th * cos phi) (sin th * sin phi) (cos th)
  /\ Vec3.norm (newsvec th phi) = 1
  /\ Rabs (Vec3.norm (newsvec th phi) - 1) <= 1 / 10 ^ 10.
Proof.
  intros _ _. split; [reflexivity|]. rewrite newsvec_norm. split; [reflexivity|].
  replace (1 - 1) with 0 by ring. rewrite Rabs_R0.
  apply Rlt_le, Rdiv_lt_0_compat; [lra | apply pow_lt; lra].
Qed.

Lemma newsvec_unit_witness :
  newsvec 1 (1/2) = Vec3.mk (sin 1 * cos (1/2)) (sin 1 * sin (1/2)) (cos 1)
  /\ Vec3.norm (newsvec 1 (1/2)) = 1
  /\ Rabs (Vec3.norm (newsvec 1 (1/2)) - 1) <= 1 / 10 ^ 10.
Proof.
  apply (newsvec_unit 1 (1/2)); pose proof PI2_1; lra.
Defined.

(** C9: at the pole th = 0 the direction does not depend on the azimuth:
    it is (0,0,1) for every phi. *)
Theorem newsvec_pole (phi1 phi2 : R) :
  - PI <= phi1 <= PI -> - PI <= phi2 <= PI ->
  newsvec 0 phi1 = newsvec 0 phi2 /\ newsvec 0 phi1 = Vec3.mk 0 0 1
  /\ newsvec 0 phi2 = Vec3.mk 0 0 1.
Proof.
  intros _ _.
  assert (H : forall phi, newsvec 0 phi = Vec3.mk 0 0 1).
  { intros phi. unfold newsvec. rewrite sin_0, cos_0.
    apply Vec3Facts.eq_intro; simpl; ring. }
  rewrite !H. auto.
Qed.

Lemma newsvec_pole_witness :
  newsvec 0 0 = newsvec 0 1 /\ newsvec 0 0 = Vec3.mk 0 0 1
  /\ newsvec 0 1 = Vec3.mk 0 0 1.
Proof.
  apply (newsvec_pole 0 1); pose proof PI2_1; lra.
Defined.

(** ** Arrays and masks *)

Lemma np_sub_same_shape (a b : list R) :
  length a = length b -> np_sub a b = Some (zip_with Rminus a b).
Proof. intros H. unfold np_sub. rewrite decide_True by done. done. Qed.

Lemma mask_assign_same_shape (arr : list vec3) (mask : list bool) v :
  length mask = length arr ->
  mask_assign arr mask v
  = Some (zip_with (fun (m : bool) row => if m then v else row) mask arr).
Proof. intros H. unfold mask_assign. rewrite decide_True by done. done. Qed.

Lemma zip_with_masks (up : list bool) (arr : list vec3) v v' :
  length up = length arr ->
  zip_with (fun (m : bool) row => if m then v' else row) (negb <$> up)
    (zip_with (fun (m : bool) row => if m then v else row) up arr)
  = (fun m : bool => if m then v else v') <$> up.
Proof.
  revert arr. induction up as [|m up IH]; intros [|a arr] Hlen;
    simpl in *; try done.
  f_equal; [by destruct m | apply IH; lia].
Qed.

(** The two assignments of the masked residual, one after the other. *)
Lemma mask_assign_both (up : list bool) (arr : list vec3) v :
  length up = length arr ->
  mask_assign arr up v ≫= (fun s1 => mask_assign s1 (negb <$> up) (Vec3.opp v))
  = Some (masked_spins up v).
Proof.
  intros Hlen. rewrite mask_assign_same_shape by done. simpl.
  rewrite mask_assign_same_shape
    by (rewrite length_fmap, length_zip_with_l_eq; done).
  by rewrite zip_with_masks.
Qed.

Lemma elem_of_mask_sites (mask : list bool) (i : nat) :
  i ∈ mask_sites mask <-> mask !! i = Some true.
Proof.
  unfold mask_sites. rewrite elem_of_list_to_set, list_elem_of_filter, elem_of_seq.
  split; [tauto|]. intros H. split; [done|].
  apply lookup_lt_Some in H. lia.
Qed.

Lemma elem_of_all_sites (n i : nat) : i ∈ all_sites n <-> (i < n)%nat.
Proof. unfold all_sites. rewrite elem_of_list_to_set, elem_of_seq. lia. Qed.

Lemma masked_spins_lookup (mask : list bool) v i (m : bool) :
  mask !! i = Some m ->
  masked_spins mask v !! i = Some (if m then v else Vec3.opp v).
Proof. intros H. unfold masked_spins. by rewrite list_lookup_fmap, H. Qed.

(** C5: for every spin array and every reference vector, the two masks have
    one entry per site, select disjoint sets of sites whose union is the set
    of all sites, mask A selects the sites whose spin is at Euclidean
    distance below 0.1 from the reference vector and mask B the others. *)
Theorem masks_partition (w : Notebook) :
  let n := length (spins (mstr w)) in
  let A := mask_sites (upMask (make_masks w)) in
  let B := mask_sites (downMask (make_masks w)) in
  length (upMask (make_masks w)) = n
  /\ length (downMask (make_masks w)) = n
  /\ A ∩ B = ∅
  /\ A ∪ B = all_sites n
  /\ (forall i s, spins (mstr w) !! i = Some s ->
        (i ∈ A <-> Vec3.norm (Vec3.sub s (svec w)) < 1/10))
  /\ (forall i, i ∈ B <-> i ∈ all_sites n /\ i ∉ A).
Proof.
  intros n A B. subst n A B. simpl.
  set (f := fun s => bool_decide (Vec3.norm (Vec3.sub s (svec w)) < 1 / 10)).
  assert (HA : forall i, i ∈ mask_sites (f <$> spins (mstr w))
                 <-> exists s, spins (mstr w) !! i = Some s /\ f s = true).
  { intros i. rewrite elem_of_mask_sites, list_lookup_fmap.
    destruct (spins (mstr w) !! i) as [s|]; simpl; [|naive_solver].
    split; [intros [= H]; eauto | intros (s' & [= <-] & ->); done]. }
  assert (HB : forall i, i ∈ mask_sites (negb <$> (f <$> spins (mstr w)))
                 <-> exists s, spins (mstr w) !! i = Some s /\ f s = false).
  { intros i. rewrite elem_of_mask_sites, !list_lookup_fmap.
    destruct (spins (mstr w) !! i) as [s|]; simpl; [|naive_solver].
    split.
    - intros [= H]. exists s. split; [done|]. by destruct (f s).
    - intros (s' & [= <-] & ->). done. }
  assert (Hall : forall i, i ∈ all_sites (length (spins (mstr w)))
                   <-> exists s, spins (mstr w) !! i = Some s).
  { intros i. rewrite elem_of_all_sites. rewrite <- lookup_lt_is_Some. done. }
  repeat split.
  - by rewrite length_fmap.
  - by rewrite !length_fmap.
  - apply set_eq. intros i. rewrite elem_of_intersection, HA, HB.
    split; [|set_solver]. intros [(s & Hs & Ht) (s' & Hs' & Hf)]. congruence.
  - apply set_eq. intros i. rewrite elem_of_union, HA, HB, Hall.
    split; [naive_solver|]. intros [s Hs]. destruct (f s) eqn:E; eauto.
  - rewrite HA. intros (s' & Hs' & Ht). assert (s' = s) as -> by congruence.
    unfold f in Ht. by apply bool_decide_eq_true in Ht.
  - rewrite HA. intros Hlt. exists s. split; [done|].
    unfold f. by apply bool_decide_eq_true.
  - apply Hall. apply HB in H. naive_solver.
  - rewrite HA. apply HB in H. intros (s & Hs & Ht).
    destruct H as (s' & Hs' & Hf). congruence.
  - intros [Hi Hn]. apply HB. apply Hall in Hi as [s Hs]. exists s.
    split; [done|]. destruct (f s) eqn:E; [|done].
    exfalso. apply Hn, HA. eauto.
Qed.

(** ** The masked residual *)

Section MaskedResidual.
Context `{D : Diffpy}.

Lemma masked_ok_make_masks (w : Notebook) : masked_ok (make_masks w).
Proof. split; simpl; [by rewrite length_fmap | done]. Qed.

Lemma unpack5_Some (p : list R) (t : R * R * R * R * R) :
  unpack5 p = Some t ->
  exists oscale pscale damp th phi,
    p = [oscale; pscale; damp; th; phi] /\ t = (oscale, pscale, damp, th, phi).
Proof.
  destruct p as [|a [|b [|c [|d [|e [|f p]]]]]]; simpl; try discriminate.
  intros [= <-]. by exists a, b, c, d, e.
Qed.

(** On a state with well-formed masks, the masked residual is the
    subtraction of the signal computed on [masked_state]. *)
Lemma residual_masked_eq (oscale pscale damp th phi : R) (d : list R)
    (w : Notebook) :
  masked_ok w ->
  residual_masked [oscale; pscale; damp; th; phi] d w
  = r ← np_sub d (calc2 (masked_state oscale pscale damp th phi w));
    Some (r, masked_state oscale pscale damp th phi w).
Proof.
  intros [Hlen Hdown]. unfold residual_masked. simpl.
  rewrite Hdown.
  pose proof (mask_assign_both (upMask w) (spins (mstr w))
                (newsvec th phi) Hlen) as Hboth.
  destruct (mask_assign (spins (mstr w)) (upMask w) (newsvec th phi))
    as [s1|]; simpl in Hboth; [|done].
  simpl. rewrite Hboth. simpl. unfold masked_state. by rewrite Hdown.
Qed.

Lemma residual_masked_total (n : nat) (oscale pscale damp th phi : R)
    (d : list R) (w : Notebook) :
  masked_ok w -> fixed_grid n (mc w) -> length d = n ->
  residual_masked [oscale; pscale; damp; th; phi] d w
  = Some (zip_with Rminus d (calc2 (masked_state oscale pscale damp th phi w)),
          masked_state oscale pscale damp th phi w).
Proof.
  intros Hok Hgrid Hd. rewrite residual_masked_eq by done.
  rewrite np_sub_same_shape; [done|].
  unfold calc2, mc_calc. simpl. by rewrite Hgrid.
Qed.

Lemma residual_masked_inv (p d r : list R) (w w' : Notebook) :
  masked_ok w -> residual_masked p d w = Some (r, w') ->
  exists oscale pscale damp th phi,
    p = [oscale; pscale; damp; th; phi]
    /\ w' = masked_state oscale pscale damp th phi w.
Proof.
  intros Hok H.
  destruct (unpack5 p) as [t|] eqn:Hp;
    [|unfold residual_masked in H; rewrite Hp in H; discriminate].
  apply unpack5_Some in Hp as (o & ps & dm & th & ph & -> & ->).
  exists o, ps, dm, th, ph. split; [done|].
  rewrite residual_masked_eq in H by done.
  destruct (np_sub d _); simpl in H; congruence.
Qed.

Lemma masked_state_ok oscale pscale damp th phi (w : Notebook) :
  masked_ok w -> masked_ok (masked_state oscale pscale damp th phi w).
Proof.
  intros [Hlen Hdown]. split; simpl; [|done].
  unfold masked_spins. by rewrite length_fmap.
Qed.

(** Every state of the masked notebook keeps the masks of the mask cell. *)
Lemma reachable_masked (w0 w : Notebook) :
  masked_ok w0 -> reachable Masked w0 w ->
  masked_ok w /\ upMask w = upMask w0 /\ downMask w = downMask w0
  /\ svec w = svec w0 /\ species (mstr w) = species (mstr w0)
  /\ atoms (mstr w) = atoms (mstr w0)
  /\ rmin (mc w) = rmin (mc w0) /\ rmax (mc w) = rmax (mc w0)
  /\ length (spins (mstr w)) = length (spins (mstr w0)).
Proof.
  intros Hok0. induction 1 as [|w p d r w' Hreach IH Hstep].
  - repeat split; try done; apply Hok0.
  - destruct IH as (Hok & Hup & Hdown & Hsv & Hsp & Hat & Hmin & Hmax & Hlen).
    simpl in Hstep.
    apply residual_masked_inv in Hstep as (o & ps & dm & th & ph & -> & ->);
      [|done].
    split; [by apply masked_state_ok|]. simpl.
    repeat split; try done.
    unfold masked_spins. rewrite length_fmap.
    destruct Hok as [Hl _]. congruence.
Qed.

(** C2: one evaluation of the masked residual returns, and leaves the
    direction vector (sin th cos phi, sin th sin phi, cos th) of (th, phi)
    on every site of mask A and its opposite on every site of mask B, so
    that every spin is plus or minus the direction; at th = 0, phi = 0 with
    A = {0} and B = {1} the spin array is [(0,0,1), (0,0,-1)]. *)
Theorem masked_overwrites (n : nat) (w : Notebook)
    (oscale pscale damp th phi : R) (ydata : list R) :
  masked_ok w -> fixed_grid n (mc w) -> length ydata = n ->
  exists r w',
    residual_masked [oscale; pscale; damp; th; phi] ydata w = Some (r, w')
    /\ (forall i, i ∈ mask_sites (upMask w) ->
          spins (mstr w') !! i
          = Some (Vec3.mk (sin th * cos phi) (sin th * sin phi) (cos th)))
    /\ (forall i, i ∈ mask_sites (downMask w) ->
          spins (mstr w') !! i
          = Some (Vec3.mk (- (sin th * cos phi)) (- (sin th * sin phi))
                          (- cos th)))
    /\ (forall s, s ∈ spins (mstr w') ->
          s = Vec3.mk (sin th * cos phi) (sin th * sin phi) (cos th)
          \/ s = Vec3.mk (- (sin th * cos phi)) (- (sin th * sin phi))
                         (- cos th))
    /\ (th = 0 -> phi = 0 ->
        mask_sites (upMask w) = {[0%nat]} ->
        mask_sites (downMask w) = {[1%nat]} ->
        spins (mstr w') = [Vec3.mk 0 0 1; Vec3.mk 0 0 (-1)]).
Proof.
  intros Hok Hgrid Hd.
  eexists _, _. split; [by apply (residual_masked_total n)|]. simpl.
  destruct Hok as [Hlen Hdown].
  split; [|split; [|split]].
  - intros i Hi. apply elem_of_mask_sites in Hi.
    by rewrite (masked_spins_lookup _ _ _ true).
  - intros i Hi. apply elem_of_mask_sites in Hi.
    rewrite Hdown, list_lookup_fmap in Hi.
    destruct (upMask w !! i) as [[|]|] eqn:E; simpl in Hi; try discriminate.
    by rewrite (masked_spins_lookup _ _ _ false).
  - intros s Hs. unfold masked_spins in Hs.
    apply list_elem_of_fmap in Hs as ([|] & -> & _);
      [left | right]; reflexivity.
  - intros -> -> HA HB.
    assert (Hup : upMask w = [true; false]).
    { assert (H0 : upMask w !! 0%nat = Some true)
        by (apply elem_of_mask_sites; rewrite HA; set_solver).
      assert (H1 : downMask w !! 1%nat = Some true)
        by (apply elem_of_mask_sites; rewrite HB; set_solver).
      assert (H2 : downMask w !! 2%nat <> Some true).
      { intros H2. apply elem_of_mask_sites in H2. rewrite HB in H2.
        set_solver. }
      assert (H3 : upMask w !! 2%nat <> Some true).
      { intros H3. apply elem_of_mask_sites in H3. rewrite HA in H3.
        set_solver. }
      rewrite Hdown in H1, H2. rewrite list_lookup_fmap in H1, H2.
      destruct (upMask w) as [|m0 [|m1 [|m2 l]]]; simpl in *;
        try discriminate.
      - injection H0 as ->. injection H1 as H1. by destruct m1.
      - destruct m2; simpl in *; congruence. }
    rewrite Hup. unfold masked_spins, newsvec. simpl.
    rewrite sin_0, cos_0.
    f_equal; [|f_equal]; apply Vec3Facts.eq_intro; simpl; ring.
Qed.

(** C8: the masks are those the mask cell computed before the optimisation,
    whatever evaluations came before, and one more evaluation of the masked
    residual returns and leaves mask A, mask B, the reference vector, the
    species (basis and propagation vectors), the atom array and the
    calculator's range as they were: the new state is the old one with the
    spin values and the three scalars replaced. *)
Theorem masked_frame (n : nat) (w0 w : Notebook)
    (oscale pscale damp th phi : R) (ydata : list R) :
  reachable Masked (make_masks w0) w -> fixed_grid n (mc w) -> length ydata = n ->
  upMask w = upMask (make_masks w0)
  /\ downMask w = downMask (make_masks w0)
  /\ exists r w',
      residual_masked [oscale; pscale; damp; th; phi] ydata w = Some (r, w')
      /\ upMask w' = upMask w /\ downMask w' = downMask w
      /\ svec w' = svec w
      /\ species (mstr w') = species (mstr w)
      /\ atoms (mstr w') = atoms (mstr w)
      /\ rmin (mc w') = rmin (mc w) /\ rmax (mc w') = rmax (mc w)
      /\ same_but_spins_and_scalars w w'.
Proof.
  intros Hreach Hgrid Hd.
  apply reachable_masked in Hreach as (Hok & Hup & Hdown & _);
    [|apply masked_ok_make_masks].
  split; [done|]. split; [done|].
  eexists _, _. split; [by apply (residual_masked_total n)|].
  simpl. repeat split.
  exists (masked_spins (upMask w) (newsvec th phi)), oscale, pscale, damp.
  split; [done|]. unfold masked_spins. rewrite length_fmap. apply Hok.
Qed.

End MaskedResidual.

(** ** The regeneration residual *)

Section RegenResidual.
Context `{D : Diffpy}.

Lemma residual_regen_eq (oscale pscale damp th phi : R) (d : list R)
    (sp : MagSpecies) (w : Notebook) :
  species (mstr w) !! "0" = Some sp ->
  residual_regen [oscale; pscale; damp; th; phi] d w
  = r ← np_sub d (calc2 (regen_state oscale pscale damp th phi sp w));
    Some (r, regen_state oscale pscale damp th phi sp w).
Proof. intros Hsp. unfold residual_regen. simpl. rewrite Hsp. done. Qed.

Lemma residual_regen_total (n : nat) (oscale pscale damp th phi : R)
    (d : list R) (sp : MagSpecies) (w : Notebook) :
  species (mstr w) !! "0" = Some sp -> fixed_grid n (mc w) -> length d = n ->
  residual_regen [oscale; pscale; damp; th; phi] d w
  = Some (zip_with Rminus d
            (calc2 (regen_state oscale pscale damp th phi sp w)),
          regen_state oscale pscale damp th phi sp w).
Proof.
  intros Hsp Hgrid Hd. rewrite (residual_regen_eq _ _ _ _ _ _ sp) by done.
  rewrite np_sub_same_shape; [done|].
  unfold calc2, mc_calc. simpl. by rewrite Hgrid.
Qed.

Lemma residual_regen_inv (p d r : list R) (w w' : Notebook) :
  residual_regen p d w = Some (r, w') ->
  exists oscale pscale damp th phi sp,
    p = [oscale; pscale; damp; th; phi]
    /\ species (mstr w) !! "0" = Some sp
    /\ w' = regen_state oscale pscale damp th phi sp w.
Proof.
  intros H.
  destruct (unpack5 p) as [t|] eqn:Hp;
    [|unfold residual_regen in H; rewrite Hp in H; discriminate].
  apply unpack5_Some in Hp as (o & ps & dm & th & ph & -> & ->).
  destruct (species (mstr w) !! "0") as [sp|] eqn:Hsp;
    [|unfold residual_regen in H; simpl in H; rewrite Hsp in H; discriminate].
  exists o, ps, dm, th, ph, sp. split; [done|]. split; [done|].
  rewrite (residual_regen_eq _ _ _ _ _ _ sp) in H by done.
  destruct (np_sub d _); simpl in H; congruence.
Qed.

(** C4: one evaluation of the regeneration residual returns; it has
    assigned the direction vector (sin th cos phi, sin th sin phi, cos th)
    of (th, phi) as the basis vector of the species ['0'], regenerated the
    spins with [makeSpins] from the structure so updated, set the three
    scalars on the calculator, and what it returns is observed minus
    calculated, entry by entry, for the signal calculated on that state. *)
Theorem regen_steps (n : nat) (w : Notebook) (sp : MagSpecies)
    (oscale pscale damp th phi : R) (ydata : list R) :
  species (mstr w) !! "0" = Some sp -> fixed_grid n (mc w) -> length ydata = n ->
  exists r w',
    residual_regen [oscale; pscale; damp; th; phi] ydata w = Some (r, w')
    /\ species (mstr w')
       = <["0" := set_basisvecs
                    (Vec3.mk (sin th * cos phi) (sin th * sin phi) (cos th))
                    sp]> (species (mstr w))
    /\ basisvecs <$> species (mstr w') !! "0"
       = Some (Vec3.mk (sin th * cos phi) (sin th * sin phi) (cos th))
    /\ mstr w'
       = makeSpins
           (set_species
              (<["0" := set_basisvecs
                          (Vec3.mk (sin th * cos phi) (sin th * sin phi)
                                   (cos th))
                          sp]> (species (mstr w)))
              (mstr w))
    /\ ordScale (mc w') = oscale /\ paraScale (mc w') = pscale
    /\ dampRate (mc w') = damp
    /\ r = zip_with Rminus ydata (mc_calc w').2
    /\ length r = n
    /\ (forall i yi ci, ydata !! i = Some yi -> (mc_calc w').2 !! i = Some ci ->
          r !! i = Some (yi - ci)).
Proof.
  intros Hsp Hgrid Hd.
  eexists _, _. split; [by apply (residual_regen_total n)|].
  set (w' := regen_state oscale pscale damp th phi sp w).
  repeat split.
  - simpl. by rewrite lookup_insert_eq.
  - rewrite length_zip_with_l_eq; [done|].
    unfold calc2, mc_calc. simpl. by rewrite Hgrid.
  - intros i yi ci Hy Hc. rewrite lookup_zip_with, Hy. simpl.
    unfold calc2. rewrite Hc. done.
Qed.

End RegenResidual.

(** ** The calculator as the model evaluations use it *)

Lemma makeSpins_ext (D D' : Diffpy) (ms : MagStructure) :
  @phasefac D' = @phasefac D -> makeSpins (D := D') ms = makeSpins (D := D) ms.
Proof.
  intros Hph. unfold makeSpins. f_equal. f_equal.
  apply list_fmap_ext. intros i [k sp] _. simpl.
  unfold species_spins. by rewrite Hph.
Qed.

Lemma residual_ext (D D' : Diffpy) (path : Path) (p d : list R)
    (w : Notebook) :
  @phasefac D' = @phasefac D ->
  (forall c a s, (calc_both (Diffpy := D') c a s).2
                 = (calc_both (Diffpy := D) c a s).2) ->
  residual (D := D') path p d w = residual (D := D) path p d w.
Proof.
  intros Hph Hcalc.
  assert (Hc2 : forall u, calc2 (D := D') u = calc2 (D := D) u)
    by (intros u; apply Hcalc).
  destruct path; simpl.
  - unfold residual_regen.
    destruct (unpack5 p) as [[[[[o ps] dm] th] ph]|]; simpl; [|done].
    destruct (species (mstr w) !! "0") as [sp|]; simpl; [|done].
    rewrite (makeSpins_ext D D') by done. by rewrite Hc2.
  - unfold residual_masked.
    destruct (unpack5 p) as [[[[[o ps] dm] th] ph]|]; simpl; [|done].
    destruct (mask_assign _ (upMask w) _) as [s1|]; simpl; [|done].
    destruct (mask_assign s1 _ _) as [s2|]; simpl; [|done].
    by rewrite Hc2.
Qed.

Lemma residual_total `{D : Diffpy} (n : nat) (path : Path) (w : Notebook)
    (oscale pscale damp th phi : R) (d : list R) :
  ready path w -> fixed_grid n (mc w) -> length d = n ->
  residual path [oscale; pscale; damp; th; phi] d w
  = Some (zip_with Rminus d (calc2 (state_after path oscale pscale damp th phi w)),
          state_after path oscale pscale damp th phi w).
Proof.
  intros Hready Hgrid Hd. destruct path; simpl in *.
  - destruct Hready as [sp Hsp]. rewrite Hsp.
    by apply (residual_regen_total n).
  - by apply (residual_masked_total n).
Qed.

(** C10: an evaluation of either residual, and of the co-refinement's
    [mpdf], leaves the calculator with the three scalars it was given and
    its other attributes as they were, and uses of the tuple that
    [calc(both=True)] returns only the component of index 2: the residual is
    observed minus that component, [mpdf] returns it, and a calculator that
    differs in the other components gives the same results and states. *)
Theorem evaluations_use_component_2 (D : Diffpy) (n : nat) (path : Path)
    (w : Notebook) (oscale pscale damp th phi : R) (ydata : list R) :
  ready path w -> fixed_grid n (mc w) -> length ydata = n ->
  (exists r w',
     residual path [oscale; pscale; damp; th; phi] ydata w = Some (r, w')
     /\ mc w' = mkCalculator oscale pscale damp (rmin (mc w)) (rmax (mc w))
     /\ r = zip_with Rminus ydata (mc_calc w').2)
  /\ (exists dr w',
        mpdf pscale oscale damp w = (dr, w')
        /\ mc w' = mkCalculator oscale pscale damp (rmin (mc w)) (rmax (mc w))
        /\ dr = (mc_calc w').2)
  /\ (forall D' : Diffpy,
        @phasefac D' = @phasefac D ->
        (forall c a s, (calc_both (Diffpy := D') c a s).2
                       = (calc_both (Diffpy := D) c a s).2) ->
        residual (D := D') path [oscale; pscale; damp; th; phi] ydata w
        = residual (D := D) path [oscale; pscale; damp; th; phi] ydata w
        /\ mpdf (D := D') pscale oscale damp w
           = mpdf (D := D) pscale oscale damp w).
Proof.
  intros Hready Hgrid Hd. split; [|split].
  - eexists _, _. split; [by apply (residual_total n)|].
    split; [|done].
    destruct path; simpl; [|done].
    destruct Hready as [sp Hsp]. simpl in *. by rewrite Hsp.
  - eexists _, _. split; [reflexivity|]. split; done.
  - intros D' Hph Hcalc. split; [by apply residual_ext|].
    unfold mpdf, makeAll. rewrite (makeSpins_ext D D') by done.
    f_equal. apply Hcalc.
Qed.

(** ** The optimisation driver *)

Section Driver.
Context `{D : Diffpy}.

Lemma ready_state_after (path : Path) (o ps dm th ph : R) (w : Notebook) :
  ready path w -> ready path (state_after path o ps dm th ph w).
Proof.
  destruct path; simpl.
  - intros [sp Hsp]. rewrite Hsp. simpl. rewrite lookup_insert_eq. by eexists.
  - apply masked_state_ok.
Qed.

Lemma fixed_grid_state_after (n : nat) (path : Path) (o ps dm th ph : R)
    (w : Notebook) :
  fixed_grid n (mc w) -> fixed_grid n (mc (state_after path o ps dm th ph w)).
Proof.
  intros Hgrid. destruct path; simpl; [|exact Hgrid].
  destruct (species (mstr w) !! "0"); [exact Hgrid | exact Hgrid].
Qed.

(** An evaluation overwrites what the previous one wrote. *)
Lemma state_after_twice (path : Path) (o ps dm th ph o' ps' dm' th' ph' : R)
    (w : Notebook) :
  ready path w ->
  state_after path o' ps' dm' th' ph' (state_after path o ps dm th ph w)
  = state_after path o' ps' dm' th' ph' w.
Proof.
  destruct path; simpl.
  - intros [sp Hsp]. rewrite Hsp. simpl. rewrite lookup_insert_eq.
    unfold regen_state. simpl. by rewrite insert_insert_eq.
  - intros _. done.
Qed.

Lemma run_solver_step (n : nat) (path : Path) (o ps dm th ph : R)
    (next : list R -> Solver) (d : list R) (w : Notebook) :
  ready path w -> fixed_grid n (mc w) -> length d = n ->
  run_solver path (Evaluate [o; ps; dm; th; ph] next) d w
  = run_solver path
      (next (zip_with Rminus d (calc2 (state_after path o ps dm th ph w))))
      d (state_after path o ps dm th ph w).
Proof.
  intros Hready Hgrid Hd. simpl. by rewrite (residual_total n).
Qed.

Lemma evaluations_step (n : nat) (path : Path) (o ps dm th ph : R)
    (next : list R -> Solver) (d : list R) (w : Notebook) :
  ready path w -> fixed_grid n (mc w) -> length d = n ->
  evaluations path (Evaluate [o; ps; dm; th; ph] next) d w
  = [o; ps; dm; th; ph]
    :: evaluations path
         (next (zip_with Rminus d (calc2 (state_after path o ps dm th ph w))))
         d (state_after path o ps dm th ph w).
Proof.
  intros Hready Hgrid Hd. simpl. by rewrite (residual_total n).
Qed.

(** A run returns, and leaves the state of its last evaluation. *)
Lemma run_solver_last (n : nat) (path : Path) (s : Solver) (d : list R)
    (w : Notebook) :
  ready path w -> fixed_grid n (mc w) -> length d = n -> five_params s ->
  exists xopt w',
    run_solver path s d w = Some (xopt, w')
    /\ match last (evaluations path s d w) with
       | None => w' = w
       | Some p => exists o ps dm th ph,
           p = [o; ps; dm; th; ph] /\ w' = state_after path o ps dm th ph w
       end.
Proof.
  intros Hready Hgrid Hd Hfive. revert w Hready Hgrid.
  induction Hfive as [xopt|o ps dm th ph next Hnext IH]; intros w Hready Hgrid.
  - exists xopt, w. done.
  - rewrite (run_solver_step n), (evaluations_step n) by done.
    set (w1 := state_after path o ps dm th ph w).
    set (r1 := zip_with Rminus d (calc2 w1)).
    destruct (IH r1 w1) as (xopt & w' & Hrun & Hlast);
      [by apply ready_state_after | by apply fixed_grid_state_after |].
    exists xopt, w'. split; [done|].
    rewrite last_cons.
    destruct (last (evaluations path (next r1) d w1)) as [q|].
    + destruct Hlast as (o' & ps' & dm' & th' & ph' & -> & ->).
      exists o', ps', dm', th', ph'. split; [done|].
      by apply state_after_twice.
    + exists o, ps, dm, th, ph. by subst.
Qed.

Context `{S : Scipy}.

(** C7, as the code has it: the driver calls the solver once; when the run
    returns, the fitted signal is one further call of the calculator on the
    state the run left, which is the state of the last residual evaluation
    the solver asked for (the starting state when it asked for none).  It is
    the signal of the converged vector when that last evaluation was at the
    converged vector. *)
Theorem fit_follows_last_evaluation (n : nat) (path : Path) (xi1 xi2 : R)
    (d : list R) (w : Notebook) :
  ready path w -> fixed_grid n (mc w) -> length d = n ->
  five_params (least_squares (p0 xi1 xi2) lower_bounds upper_bounds) ->
  exists xopt w',
    run_solver path (least_squares (p0 xi1 xi2) lower_bounds upper_bounds) d w
    = Some (xopt, w')
    /\ run_fit path xi1 xi2 d w = Some (xopt, calc2 w', w')
    /\ match last (evaluations path
                     (least_squares (p0 xi1 xi2) lower_bounds upper_bounds)
                     d w) with
       | None => w' = w
       | Some p => exists o ps dm th ph,
           p = [o; ps; dm; th; ph]
           /\ w' = state_after path o ps dm th ph w
           /\ (xopt = p ->
               calc2 w' = calc2 (state_after path o ps dm th ph w'))
       end.
Proof.
  intros Hready Hgrid Hd Hfive.
  destruct (run_solver_last n path _ d w Hready Hgrid Hd Hfive)
    as (xopt & w' & Hrun & Hlast).
  exists xopt, w'. split; [done|]. split.
  - unfold run_fit. rewrite Hrun. done.
  - destruct (last _) as [p|]; [|done].
    destruct Hlast as (o & ps & dm & th & ph & -> & ->).
    exists o, ps, dm, th, ph. split; [done|]. split; [done|].
    intros _. by rewrite state_after_twice.
Qed.

End Driver.

(** C6, as the code has it: the three scale entries of the initial vector
    are the constant 0.1 whatever is drawn; only the two angles are drawn, the
    polar angle as arccos of a uniform draw from [-1,1) and the azimuth as a
    uniform draw from [-PI,PI); every entry lies within its bounds. *)
Theorem p0_within_bounds (xi1 xi2 : R) :
  0 <= xi1 < 1 -> 0 <= xi2 < 1 ->
  p0 xi1 xi2
  = [1/10; 1/10; 1/10; acos (uniform (-1) 1 xi1); uniform (- PI) PI xi2]
  /\ -1 <= uniform (-1) 1 xi1 < 1
  /\ - PI <= uniform (- PI) PI xi2 < PI
  /\ Forall2 Rle lower_bounds (p0 xi1 xi2)
  /\ Forall2 Rle (p0 xi1 xi2) upper_bounds
  /\ (forall xi1' xi2', take 3 (p0 xi1' xi2') = [1/10; 1/10; 1/10]).
Proof.
  intros H1 H2. pose proof PI_RGT_0 as Hpi.
  pose proof (acos_bound (uniform (-1) 1 xi1)) as Hacos.
  assert (Hu1 : -1 <= uniform (-1) 1 xi1 < 1) by (unfold uniform; lra).
  assert (Hu2 : - PI <= uniform (- PI) PI xi2 < PI) by (unfold uniform; nra).
  split; [done|]. split; [done|]. split; [done|].
  split; [|split; [|done]]; unfold p0, lower_bounds, upper_bounds;
    repeat (constructor; [lra|]); constructor.
Qed.

(** ** The two residuals on a two-domain collinear structure *)

Lemma scale_unit_cases (c : R) (v : vec3) :
  Vec3.x v * Vec3.x v + Vec3.y v * Vec3.y v + Vec3.z v * Vec3.z v = 1 ->
  Vec3.scale c v = v \/ Vec3.scale c v = Vec3.opp v ->
  c = 1 \/ c = -1.
Proof.
  intros Hv [H|H]; [left|right].
  - assert (Hx : c * Vec3.x v = Vec3.x v) by (by rewrite <- H at 2).
    assert (Hy : c * Vec3.y v = Vec3.y v) by (by rewrite <- H at 2).
    assert (Hz : c * Vec3.z v = Vec3.z v) by (by rewrite <- H at 2).
    assert (Hc : (c - 1) * (Vec3.x v * Vec3.x v + Vec3.y v * Vec3.y v
                            + Vec3.z v * Vec3.z v) = 0).
    { replace ((c - 1) * (Vec3.x v * Vec3.x v + Vec3.y v * Vec3.y v
                          + Vec3.z v * Vec3.z v))
        with ((c * Vec3.x v - Vec3.x v) * Vec3.x v
              + (c * Vec3.y v - Vec3.y v) * Vec3.y v
              + (c * Vec3.z v - Vec3.z v) * Vec3.z v) by ring.
      rewrite Hx, Hy, Hz. ring. }
    rewrite Hv in Hc. lra.
  - assert (Hx : c * Vec3.x v = - Vec3.x v)
      by (change (Vec3.x (Vec3.scale c v) = Vec3.x (Vec3.opp v));
          by rewrite H).
    assert (Hy : c * Vec3.y v = - Vec3.y v)
      by (change (Vec3.y (Vec3.scale c v) = Vec3.y (Vec3.opp v));
          by rewrite H).
    assert (Hz : c * Vec3.z v = - Vec3.z v)
      by (change (Vec3.z (Vec3.scale c v) = Vec3.z (Vec3.opp v));
          by rewrite H).
    assert (Hc : (c + 1) * (Vec3.x v * Vec3.x v + Vec3.y v * Vec3.y v
                            + Vec3.z v * Vec3.z v) = 0).
    { replace ((c + 1) * (Vec3.x v * Vec3.x v + Vec3.y v * Vec3.y v
                          + Vec3.z v * Vec3.z v))
        with ((c * Vec3.x v + Vec3.x v) * Vec3.x v
              + (c * Vec3.y v + Vec3.y v) * Vec3.y v
              + (c * Vec3.z v + Vec3.z v) * Vec3.z v) by ring.
      rewrite Hx, Hy, Hz. ring. }
    rewrite Hv in Hc. lra.
Qed.

(** A spin along the reference vector is selected by mask A, a spin against
    it is not: their distances to the reference vector are 0 and 2. *)
Lemma near_reference (v : vec3) :
  bool_decide (Vec3.norm (Vec3.sub (Vec3.scale 1 v) v) < 1/10) = true.
Proof.
  rewrite Vec3Facts.scale_1, Vec3Facts.sub_diag, Vec3Facts.norm_zero.
  apply bool_decide_eq_true_2. lra.
Qed.

Lemma far_from_reference (v : vec3) :
  Vec3.norm v = 1 ->
  bool_decide (Vec3.norm (Vec3.sub (Vec3.scale (-1) v) v) < 1/10) = false.
Proof.
  intros Hv.
  replace (Vec3.sub (Vec3.scale (-1) v) v) with (Vec3.scale (-2) v)
    by (apply Vec3Facts.eq_intro; simpl; ring).
  rewrite Vec3Facts.norm_scale, Hv, Rabs_left by lra.
  apply bool_decide_eq_false_2. lra.
Qed.

Section TwoDomains.
Context `{D : Diffpy}.

Lemma makeSpins_single (sp : MagSpecies) (ms : MagStructure) :
  species ms = {["0" := sp]} -> spins (makeSpins ms) = species_spins sp.
Proof.
  intros Hsp. unfold makeSpins. simpl. rewrite Hsp, map_to_list_singleton.
  simpl. apply app_nil_r.
Qed.

(** The structure cell: one species ['0'], its atoms, and the spins that the
    reference vector generates. *)
Lemma make_structure_fields (sites : list vec3) (c0 : MPDFcalculator)
    (xi1 xi2 : R) :
  let w0 := make_structure sites c0 xi1 xi2 in
  let msp := mkSpecies (svec w0) (Vec3.mk (1/2) (1/2) (1/2)) sites "0" in
  svec w0 = newsvec (acos (uniform (-1) 1 xi1)) (uniform (- PI) PI xi2)
  /\ species (mstr w0) = {["0" := msp]}
  /\ atoms (mstr w0) = sites
  /\ spins (mstr w0) = species_spins msp
  /\ mc w0 = c0.
Proof.
  simpl. split; [done|].
  unfold loadSpecies, MagStructure_new. simpl. rewrite insert_empty.
  split; [done|].
  rewrite !map_to_list_singleton. simpl. rewrite !app_nil_r. done.
Qed.

(** Every state of the regeneration notebook has the single species of the
    structure cell, with some basis vector. *)
Lemma reachable_regen (sp0 : MagSpecies) (w0 w : Notebook) :
  species (mstr w0) = {["0" := sp0]} -> reachable Regeneration w0 w ->
  (exists b, species (mstr w) = {["0" := set_basisvecs b sp0]})
  /\ atoms (mstr w) = atoms (mstr w0)
  /\ rmin (mc w) = rmin (mc w0) /\ rmax (mc w) = rmax (mc w0).
Proof.
  intros Hsp0. induction 1 as [|w p d r w' Hreach IH Hstep].
  - split; [|done]. exists (basisvecs sp0). rewrite Hsp0. by destruct sp0.
  - destruct IH as ([b Hb] & Hat & Hmin & Hmax). simpl in Hstep.
    apply residual_regen_inv in Hstep
      as (o & ps & dm & th & ph & sp & -> & Hsp & ->).
    rewrite Hb, lookup_singleton_eq in Hsp. injection Hsp as <-.
    simpl. split; [|done].
    exists (newsvec th ph). by rewrite Hb, insert_singleton_eq.
Qed.

(** C1: on a structure whose reference spins are all plus or minus the
    reference vector, an evaluation of the regeneration residual and one of
    the masked residual at the same parameters and observed data, each in
    its own notebook and after any earlier evaluations, both return, with
    the same residual array, the same calculated signals and the same spin
    array. *)
Theorem residuals_agree (n : nat) (sites : list vec3) (c0 : MPDFcalculator)
    (xi1 xi2 : R) (wr wm : Notebook) (oscale pscale damp th phi : R)
    (ydata : list R) :
  let w0 := make_structure sites c0 xi1 xi2 in
  (forall s, s ∈ spins (mstr w0) -> s = svec w0 \/ s = Vec3.opp (svec w0)) ->
  reachable Regeneration w0 wr ->
  reachable Masked (make_masks w0) wm ->
  fixed_grid n c0 -> length ydata = n ->
  exists r wr' wm',
    residual_regen [oscale; pscale; damp; th; phi] ydata wr = Some (r, wr')
    /\ residual_masked [oscale; pscale; damp; th; phi] ydata wm = Some (r, wm')
    /\ mc_calc wr' = mc_calc wm'
    /\ spins (mstr wr') = spins (mstr wm').
Proof.
  intros w0 Hcol Hr Hm Hgrid Hd.
  pose proof (make_structure_fields sites c0 xi1 xi2) as Hfields.
  cbv zeta in Hfields. fold w0 in Hfields. clearbody w0.
  destruct Hfields as (Hsvec & Hspecies & Hatoms & Hspins & Hmc).
  set (k := Vec3.mk (1/2) (1/2) (1/2)) in *.
  set (msp := mkSpecies (svec w0) k sites "0") in *.
  set (v := newsvec th phi).
  assert (Hunit : Vec3.norm (svec w0) = 1)
    by (rewrite Hsvec; apply newsvec_norm).
  assert (Hsq : Vec3.x (svec w0) * Vec3.x (svec w0)
                + Vec3.y (svec w0) * Vec3.y (svec w0)
                + Vec3.z (svec w0) * Vec3.z (svec w0) = 1)
    by (rewrite Hsvec; apply newsvec_sqnorm).
  (* the phase factor of every site is 1 or -1 *)
  assert (Hphase : forall i r, sites !! i = Some r ->
            phasefac k r = 1 \/ phasefac k r = -1).
  { intros i r Hi. apply (scale_unit_cases _ (svec w0) Hsq).
    apply Hcol. rewrite Hspins. unfold species_spins. simpl.
    apply list_elem_of_lookup. exists i. by rewrite list_lookup_fmap, Hi. }
  (* what the masked path writes is what regeneration generates *)
  assert (Hsame : masked_spins (upMask (make_masks w0)) v
                  = species_spins (set_basisvecs v msp)).
  { unfold masked_spins, species_spins. simpl. rewrite Hspins.
    unfold species_spins. simpl. rewrite <- !list_fmap_compose.
    apply list_fmap_ext. intros i r Hi. simpl.
    destruct (Hphase i r Hi) as [Hc|Hc].
    - rewrite Hc, near_reference. by rewrite Vec3Facts.scale_1.
    - rewrite Hc, far_from_reference by done.
      by rewrite Vec3Facts.scale_m1. }
  apply (reachable_regen msp) in Hr as ([b Hb] & Hrat & Hrmin & Hrmax);
    [|done].
  apply reachable_masked in Hm
    as (Hok & Hup & Hdown & _ & _ & Hmat & Hmmin & Hmmax & _);
    [|apply masked_ok_make_masks].
  assert (Hlook : species (mstr wr) !! "0" = Some (set_basisvecs b msp))
    by (by rewrite Hb, lookup_singleton_eq).
  assert (Hgr : fixed_grid n (mc wr)).
  { intros o ps dm a s. unfold set_scalars. rewrite Hrmin, Hrmax, Hmc.
    apply Hgrid. }
  assert (Hgm : fixed_grid n (mc wm)).
  { intros o ps dm a s. unfold set_scalars. rewrite Hmmin, Hmmax. simpl.
    rewrite Hmc. apply Hgrid. }
  set (wr' := regen_state oscale pscale damp th phi (set_basisvecs b msp) wr).
  set (wm' := masked_state oscale pscale damp th phi wm).
  assert (Hsp : spins (mstr wr') = spins (mstr wm')).
  { unfold wr', wm', regen_state, masked_state.
    cbn [mstr spins set_spins].
    rewrite (makeSpins_single (set_basisvecs v msp)).
    - rewrite Hup. symmetry. exact Hsame.
    - simpl. by rewrite Hb, insert_singleton_eq. }
  assert (Hcalc : mc_calc wr' = mc_calc wm').
  { unfold mc_calc. rewrite Hsp. f_equal.
    - unfold wr', wm', regen_state, masked_state, set_scalars. simpl.
      by rewrite Hrmin, Hrmax, Hmmin, Hmmax.
    - unfold wr', wm'. simpl. by rewrite Hrat, Hmat. }
  exists (zip_with Rminus ydata (calc2 wr')), wr', wm'.
  split; [by apply (residual_regen_total n)|].
  split; [|done].
  rewrite (residual_masked_total n) by done.
  unfold calc2. by rewrite Hcalc.
Qed.

End TwoDomains.

(** ** The toy antiferromagnet evaluated *)

Lemma toy_fixed_grid (c : MPDFcalculator) : fixed_grid (D := Toy.diffpy) 2 c.
Proof. intros o ps dm a s. reflexivity. Qed.

Lemma toy_th0 : acos (uniform (-1) 1 (1/2)) = PI / 2.
Proof.
  replace (uniform (-1) 1 (1/2)) with 0 by (unfold uniform; lra).
  apply acos_0.
Qed.

Lemma toy_phi0 : uniform (- PI) PI (1/2) = 0.
Proof. unfold uniform. lra. Qed.

Lemma toy_svec : svec Toy.start = Vec3.mk 1 0 0.
Proof.
  unfold Toy.start.
  destruct (make_structure_fields (D := Toy.diffpy) Toy.sites Toy.c0
              (1/2) (1/2)) as (-> & _).
  rewrite toy_th0, toy_phi0. unfold newsvec.
  rewrite sin_PI2, cos_PI2, sin_0, cos_0.
  apply Vec3Facts.eq_intro; simpl; ring.
Qed.

Lemma toy_species :
  species (mstr Toy.start)
  = {["0" := mkSpecies (svec Toy.start) (Vec3.mk (1/2) (1/2) (1/2))
                       Toy.sites "0"]}.
Proof.
  apply (make_structure_fields (D := Toy.diffpy) Toy.sites Toy.c0 (1/2) (1/2)).
Qed.

Lemma toy_spins :
  spins (mstr Toy.start) = [Vec3.mk 1 0 0; Vec3.mk (-1) 0 0].
Proof.
  pose proof (make_structure_fields (D := Toy.diffpy) Toy.sites Toy.c0
                (1/2) (1/2)) as (_ & _ & _ & Hspins & _).
  cbv zeta in Hspins. fold Toy.start in Hspins. rewrite Hspins.
  unfold species_spins. cbn [kvecs basisvecs magatoms Toy.sites fmap list_fmap].
  rewrite toy_svec. cbn [phasefac Toy.diffpy Vec3.x Vec3.y Vec3.z].
  replace (2 * PI * (1/2 * 0 + 1/2 * 0 + 1/2 * 0)) with 0 by ring.
  replace (2 * PI * (1/2 * 1 + 1/2 * 0 + 1/2 * 0)) with PI by field.
  rewrite cos_0, cos_PI.
  f_equal; [|f_equal]; apply Vec3Facts.eq_intro; simpl; ring.
Qed.

Lemma toy_collinear (s : vec3) :
  s ∈ spins (mstr Toy.start) ->
  s = svec Toy.start \/ s = Vec3.opp (svec Toy.start).
Proof.
  rewrite toy_spins, toy_svec. intros Hs.
  apply elem_of_cons in Hs as [->|Hs]; [by left|].
  apply elem_of_cons in Hs as [->|Hs]; [right|by apply elem_of_nil in Hs].
  apply Vec3Facts.eq_intro; simpl; ring.
Qed.

Lemma toy_upMask : upMask (make_masks Toy.start) = [true; false].
Proof.
  unfold make_masks. cbn [upMask]. rewrite toy_spins, toy_svec.
  cbn [fmap list_fmap].
  assert (Hnorm : Vec3.norm (Vec3.mk 1 0 0) = 1).
  { unfold Vec3.norm. simpl.
    replace (1 * 1 + 0 * 0 + 0 * 0) with 1 by ring. apply sqrt_1. }
  pose proof (far_from_reference (Vec3.mk 1 0 0) Hnorm) as Hfar.
  replace (Vec3.scale (-1) (Vec3.mk 1 0 0)) with (Vec3.mk (-1) 0 0) in Hfar
    by (apply Vec3Facts.eq_intro; simpl; ring).
  rewrite Hfar, Vec3Facts.sub_diag, Vec3Facts.norm_zero.
  rewrite bool_decide_eq_true_2 by lra. done.
Qed.

(** The exceptions of the residuals: a parameter vector that does not
    unpack, observed data off the calculator's grid, the masked residual
    before the mask cell has run, the regeneration residual without a
    species ['0']. *)
Example residual_short_vector :
  residual_masked (D := Toy.diffpy) [1; 1; 0; 0] [0; 0] Toy.two_site = None.
Proof. reflexivity. Qed.

Example residual_off_grid :
  residual_masked (D := Toy.diffpy) [1; 1; 0; 0; 0] [0; 0; 0] Toy.two_site
  = None.
Proof. reflexivity. Qed.

Example residual_broadcast :
  fst <$> residual_masked (D := Toy.diffpy) [1; 1; 0; 0; 0] [5] Toy.two_site
  = Some [5 - (1 * (sin 0 * cos 0) + 0); 5 - 1 * cos 0].
Proof. reflexivity. Qed.

Example residual_masked_before_masks :
  residual_masked (D := Toy.diffpy) [1; 1; 0; 0; 0] [0; 0] Toy.start = None.
Proof.
  unfold residual_masked. cbn [unpack5 mbind option_bind].
  unfold mask_assign. rewrite toy_spins. reflexivity.
Qed.

Example residual_regen_no_species :
  residual_regen (D := Toy.diffpy) [1; 1; 0; 0; 0] [0; 0] Toy.two_site = None.
Proof. reflexivity. Qed.

(** The toy calculator after a masked evaluation, first site in mask A. *)
Lemma toy_calc2_masked (o ps dm th ph : R) (w : Notebook) (up : list bool) :
  upMask w = true :: up ->
  calc2 (D := Toy.diffpy) (masked_state o ps dm th ph w)
  = [o * (sin th * cos ph) + dm; ps * cos th].
Proof.
  intros Hup. unfold calc2, mc_calc, masked_state.
  cbn [mc mstr spins atoms set_spins set_scalars]. rewrite Hup. reflexivity.
Qed.

Lemma cos_lt_1 (h : R) : 0 < h < PI -> cos h < 1.
Proof.
  intros [H0 H1]. replace h with (2 * (h / 2)) by field.
  rewrite cos_2a_sin.
  assert (0 < sin (h / 2)) by (apply sin_gt_0; lra). nra.
Qed.

Lemma masked_overwrites_witness :
  (exists r w',
     residual_masked (D := Toy.diffpy) [1; 1; 0; 0; 0] [0; 0] Toy.two_site
     = Some (r, w')
     /\ spins (mstr w') = [Vec3.mk 0 0 1; Vec3.mk 0 0 (-1)])
  /\ (exists r w',
        residual_masked (D := Toy.diffpy) [1; 1; 0; 1; 1/2] [0; 0]
          Toy.two_site = Some (r, w')
        /\ spins (mstr w') !! 0%nat
           = Some (Vec3.mk (sin 1 * cos (1/2)) (sin 1 * sin (1/2)) (cos 1))
        /\ spins (mstr w') !! 1%nat
           = Some (Vec3.mk (- (sin 1 * cos (1/2))) (- (sin 1 * sin (1/2)))
                           (- cos 1))).
Proof.
  split.
  - destruct (masked_overwrites (D := Toy.diffpy) 2 Toy.two_site 1 1 0 0 0
                [0; 0]) as (r & w' & Hres & _ & _ & _ & Hscen).
    + split; reflexivity.
    + apply toy_fixed_grid.
    + reflexivity.
    + exists r, w'. split; [exact Hres|].
      apply Hscen; reflexivity.
  - destruct (masked_overwrites (D := Toy.diffpy) 2 Toy.two_site 1 1 0 1 (1/2)
                [0; 0]) as (r & w' & Hres & Hup & Hdown & _).
    + split; reflexivity.
    + apply toy_fixed_grid.
    + reflexivity.
    + exists r, w'. split; [exact Hres|]. split.
      * apply Hup. apply elem_of_mask_sites. reflexivity.
      * apply Hdown. apply elem_of_mask_sites. reflexivity.
Defined.

Lemma masked_frame_witness :
  exists r w',
    residual_masked (D := Toy.diffpy) [1; 1; 0; 0; 0] [0; 0]
      (make_masks Toy.two_site) = Some (r, w')
    /\ upMask w' = upMask (make_masks Toy.two_site)
    /\ same_but_spins_and_scalars (make_masks Toy.two_site) w'.
Proof.
  destruct (masked_frame (D := Toy.diffpy) 2 Toy.two_site
              (make_masks Toy.two_site) 1 1 0 0 0 [0; 0])
    as (_ & _ & r & w' & Hres & Hup & _ & _ & _ & _ & _ & _ & Hsame).
  - apply reach_start.
  - apply toy_fixed_grid.
  - reflexivity.
  - exists r, w'. auto.
Defined.

Lemma p0_within_bounds_witness :
  Forall2 Rle lower_bounds (p0 (1/2) (1/2))
  /\ Forall2 Rle (p0 (1/2) (1/2)) upper_bounds.
Proof.
  destruct (p0_within_bounds (1/2) (1/2)) as (_ & _ & _ & Hl & Hu & _);
    [lra | lra | auto].
Defined.

(** C6, the part that does not hold: not every entry of the initial vector
    is drawn at random, the entry of index 0 never varies. *)
Lemma p0_scales_not_drawn :
  ~ (forall i, (i < 5)%nat ->
       exists xi1 xi2 xi1' xi2', p0 xi1 xi2 !! i <> p0 xi1' xi2' !! i).
Proof.
  intros H. destruct (H 0%nat) as (a & b & a' & b' & Hne); [lia|].
  apply Hne. reflexivity.
Qed.

Lemma residuals_agree_witness :
  exists r wr' wm',
    residual_regen (D := Toy.diffpy) [1; 1; 0; 1; 1/2] [0; 0] Toy.start
    = Some (r, wr')
    /\ residual_masked (D := Toy.diffpy) [1; 1; 0; 1; 1/2] [0; 0]
         (make_masks Toy.start) = Some (r, wm')
    /\ mc_calc (D := Toy.diffpy) wr' = mc_calc (D := Toy.diffpy) wm'.
Proof.
  destruct (residuals_agree (D := Toy.diffpy) 2 Toy.sites Toy.c0 (1/2) (1/2)
              Toy.start (make_masks Toy.start) 1 1 0 1 (1/2) [0; 0])
    as (r & wr' & wm' & Hr & Hm & Hc & _).
  - apply toy_collinear.
  - apply reach_start.
  - apply reach_start.
  - apply toy_fixed_grid.
  - reflexivity.
  - exists r, wr', wm'. auto.
Defined.

Lemma regen_steps_witness :
  exists r w',
    residual_regen (D := Toy.diffpy) [1; 1; 0; 1; 1/2] [0; 0] Toy.start
    = Some (r, w')
    /\ basisvecs <$> species (mstr w') !! "0"
       = Some (Vec3.mk (sin 1 * cos (1/2)) (sin 1 * sin (1/2)) (cos 1))
    /\ length r = 2%nat.
Proof.
  destruct (regen_steps (D := Toy.diffpy) 2 Toy.start
              (mkSpecies (svec Toy.start) (Vec3.mk (1/2) (1/2) (1/2))
                         Toy.sites "0")
              1 1 0 1 (1/2) [0; 0])
    as (r & w' & Hres & _ & Hb & _ & _ & _ & _ & _ & Hlen & _).
  - rewrite toy_species. apply lookup_singleton_eq.
  - apply toy_fixed_grid.
  - reflexivity.
  - exists r, w'. auto.
Defined.

Lemma evaluations_use_component_2_witness :
  exists r w',
    residual (D := Toy.diffpy) Masked [1; 1; 0; 1; 1/2] [0; 0] Toy.two_site
    = Some (r, w')
    /\ mc w' = mkCalculator 1 1 0 0 1.
Proof.
  destruct (evaluations_use_component_2 Toy.diffpy 2 Masked Toy.two_site
              1 1 0 1 (1/2) [0; 0])
    as ((r & w' & Hres & Hmc & _) & _).
  - split; reflexivity.
  - apply toy_fixed_grid.
  - reflexivity.
  - exists r, w'. auto.
Defined.

Lemma toy_five_params (h : R) (x0 lb ub : list R) :
  length x0 = 5%nat ->
  five_params (least_squares (Scipy := Toy.scipy h) x0 lb ub).
Proof.
  intros Hlen.
  destruct x0 as [|a [|b [|c [|d [|e [|f x0]]]]]]; try discriminate.
  cbn. repeat (constructor; intros).
Qed.

Lemma fit_follows_last_evaluation_witness :
  exists xopt w',
    run_fit (D := Toy.diffpy) (S := Toy.scipy Toy.step) Masked (1/2) (1/2)
      [0; 0] (make_masks Toy.start)
    = Some (xopt, calc2 (D := Toy.diffpy) w', w').
Proof.
  destruct (fit_follows_last_evaluation (D := Toy.diffpy)
              (S := Toy.scipy Toy.step) 2 Masked (1/2) (1/2) [0; 0]
              (make_masks Toy.start))
    as (xopt & w' & _ & Hfit & _).
  - apply masked_ok_make_masks.
  - apply toy_fixed_grid.
  - reflexivity.
  - apply toy_five_params. reflexivity.
  - exists xopt, w'. exact Hfit.
Defined.

(** C7, the part that does not hold: the toy solver returns its starting
    vector (0.1, 0.1, 0.1, PI/2, PI/2) after the finite-difference
    evaluations; the fitted signal is the one of the last of them, at the
    azimuth PI/2 + 1e-8, and the residual evaluated at the returned vector
    calculates another signal: the first entries differ by 0.1 sin(1e-8),
    more than 5e-10, and the first spins by sin(1e-8) in their x
    component. *)
Lemma fit_not_at_converged :
  exists fit w' r w'',
    run_fit (D := Toy.diffpy) (S := Toy.scipy Toy.step) Masked (1/2) (3/4)
      [0; 0] (make_masks Toy.start)
    = Some (p0 (1/2) (3/4), fit, w')
    /\ residual (D := Toy.diffpy) Masked (p0 (1/2) (3/4)) [0; 0] w'
       = Some (r, w'')
    /\ fit = [1/10 * (- sin Toy.step) + 1/10; 1/10 * 0]
    /\ calc2 (D := Toy.diffpy) w'' = [1/10 * 0 + 1/10; 1/10 * 0]
    /\ 1 / 2000000000
       <= (1/10 * 0 + 1/10) - (1/10 * (- sin Toy.step) + 1/10)
    /\ spins (mstr w') !! 0%nat
       = Some (Vec3.mk (- sin Toy.step) (cos Toy.step) 0)
    /\ spins (mstr w'') !! 0%nat = Some (Vec3.mk 0 1 0)
    /\ fit <> calc2 (D := Toy.diffpy) w''.
Proof.
  pose proof (masked_ok_make_masks Toy.start) as Hok0.
  assert (Hphi : uniform (- PI) PI (3/4) = PI / 2) by (unfold uniform; lra).
  assert (Hcos : cos (Toy.step + PI / 2) = - sin Toy.step)
    by (rewrite cos_plus, cos_PI2, sin_PI2; ring).
  assert (Hsin : sin (Toy.step + PI / 2) = cos Toy.step)
    by (rewrite sin_plus, cos_PI2, sin_PI2; ring).
  assert (Hstep : 1 / 200000000 <= sin Toy.step).
  { pose proof PI2_1 as Hpi. unfold Toy.step.
    pose proof (SIN (1 / 100000000)) as [Hlb _]; [lra | lra |].
    unfold sin_lb, sin_approx, sin_term in Hlb. simpl in Hlb. lra. }
  eexists _, _, _, _. split; [|split].
  - unfold run_fit, p0. cbn [least_squares Toy.scipy Toy.probe alter list_alter].
    repeat (rewrite (run_solver_step (D := Toy.diffpy) 2);
            [| repeat apply (ready_state_after Masked); exact Hok0
             | apply toy_fixed_grid | reflexivity ]).
    cbn [run_solver mbind option_bind]. reflexivity.
  - unfold p0. rewrite (residual_total (D := Toy.diffpy) 2);
      [reflexivity
      | repeat apply (ready_state_after Masked); exact Hok0
      | apply toy_fixed_grid | reflexivity ].
  - cbn [state_after].
    assert (Hfit : calc2 (D := Toy.diffpy)
                     (masked_state (1/10) (1/10) (1/10)
                        (acos (uniform (-1) 1 (1/2)))
                        (Toy.step + uniform (- PI) PI (3/4))
                        (masked_state (1/10) (1/10) (1/10)
                           (Toy.step + acos (uniform (-1) 1 (1/2)))
                           (uniform (- PI) PI (3/4))
                           (masked_state (1/10) (1/10) (Toy.step + 1/10)
                              (acos (uniform (-1) 1 (1/2)))
                              (uniform (- PI) PI (3/4))
                              (masked_state (1/10) (Toy.step + 1/10) (1/10)
                                 (acos (uniform (-1) 1 (1/2)))
                                 (uniform (- PI) PI (3/4))
                                 (masked_state (Toy.step + 1/10) (1/10) (1/10)
                                    (acos (uniform (-1) 1 (1/2)))
                                    (uniform (- PI) PI (3/4))
                                    (masked_state (1/10) (1/10) (1/10)
                                       (acos (uniform (-1) 1 (1/2)))
                                       (uniform (- PI) PI (3/4))
                                       (make_masks Toy.start)))))))
                   = [1/10 * (- sin Toy.step) + 1/10; 1/10 * 0]).
    { rewrite (toy_calc2_masked _ _ _ _ _ _ [false]) by apply toy_upMask.
      rewrite toy_th0, Hphi, Hcos, sin_PI2, cos_PI2.
      f_equal; ring. }
    assert (Hconv : calc2 (D := Toy.diffpy)
                      (masked_state (1/10) (1/10) (1/10)
                         (acos (uniform (-1) 1 (1/2)))
                         (uniform (- PI) PI (3/4))
                         (masked_state (1/10) (1/10) (1/10)
                            (acos (uniform (-1) 1 (1/2)))
                            (Toy.step + uniform (- PI) PI (3/4))
                            (masked_state (1/10) (1/10) (1/10)
                               (Toy.step + acos (uniform (-1) 1 (1/2)))
                               (uniform (- PI) PI (3/4))
                               (masked_state (1/10) (1/10) (Toy.step + 1/10)
                                  (acos (uniform (-1) 1 (1/2)))
                                  (uniform (- PI) PI (3/4))
                                  (masked_state (1/10) (Toy.step + 1/10)
                                     (1/10)
                                     (acos (uniform (-1) 1 (1/2)))
                                     (uniform (- PI) PI (3/4))
                                     (masked_state (Toy.step + 1/10) (1/10)
                                        (1/10)
                                        (acos (uniform (-1) 1 (1/2)))
                                        (uniform (- PI) PI (3/4))
                                        (masked_state (1/10) (1/10) (1/10)
                                           (acos (uniform (-1) 1 (1/2)))
                                           (uniform (- PI) PI (3/4))
                                           (make_masks Toy.start))))))))
                    = [1/10 * 0 + 1/10; 1/10 * 0]).
    { rewrite (toy_calc2_masked _ _ _ _ _ _ [false]) by apply toy_upMask.
      rewrite toy_th0, Hphi, sin_PI2, cos_PI2.
      f_equal; ring. }
    split; [exact Hfit|]. split; [exact Hconv|].
    split; [lra|].
    split; [|split].
    + cbn [masked_state mstr spins set_spins upMask]. rewrite toy_upMask.
      cbn [masked_spins fmap list_fmap lookup list_lookup].
      unfold newsvec. rewrite toy_th0, Hphi, Hcos, Hsin, sin_PI2, cos_PI2.
      f_equal. apply Vec3Facts.eq_intro; simpl; ring.
    + cbn [masked_state mstr spins set_spins upMask]. rewrite toy_upMask.
      cbn [masked_spins fmap list_fmap lookup list_lookup].
      unfold newsvec. rewrite toy_th0, Hphi, sin_PI2, cos_PI2.
      f_equal. apply Vec3Facts.eq_intro; simpl; ring.
    + rewrite Hfit, Hconv. intros [= Heq]. lra.
Qed.

(** * Part III: further properties of the notebooks' code *)

(** ** When the residuals return and what they return *)

Lemma unpack5_is_Some (p : list R) :
  is_Some (unpack5 p) <-> length p = 5%nat.
Proof.
  destruct p as [|a [|b [|c [|d [|e [|f p]]]]]]; simpl;
    (split; [intros [t Ht]; try discriminate; done | intros H; try discriminate]).
  by eexists.
Qed.

Lemma np_sub_is_Some (a b : list R) :
  is_Some (np_sub a b)
  <-> length a = length b \/ length a = 1%nat \/ length b = 1%nat.
Proof.
  unfold np_sub. destruct (decide (length a = length b)) as [Heq|Hne].
  - split; [auto | by eexists].
  - destruct a as [|a0 [|a1 a]], b as [|b0 [|b1 b]]; simpl in *;
      (split; [intros [t Ht]; try discriminate; auto
              | intros [H|[H|H]]; try discriminate; try done; by eexists]).
Qed.

Lemma np_sub_single (y : R) (b : list R) :
  np_sub [y] b = Some ((fun bi => y - bi) <$> b).
Proof.
  unfold np_sub. destruct (decide (length [y] = length b)) as [Heq|Hne];
    [|done].
  destruct b as [|b0 [|b1 b]]; try discriminate. done.
Qed.

Section ResidualResults.
Context `{D : Diffpy}.

Lemma residual_eq (path : Path) (o ps dm th ph : R) (d : list R)
    (w : Notebook) :
  ready path w ->
  residual path [o; ps; dm; th; ph] d w
  = r ← np_sub d (calc2 (state_after path o ps dm th ph w));
    Some (r, state_after path o ps dm th ph w).
Proof.
  destruct path; simpl.
  - intros [sp Hsp]. rewrite Hsp. by apply residual_regen_eq.
  - apply residual_masked_eq.
Qed.

Lemma residual_inv (path : Path) (p d r : list R) (w w' : Notebook) :
  ready path w -> residual path p d w = Some (r, w') ->
  exists o ps dm th ph,
    p = [o; ps; dm; th; ph] /\ w' = state_after path o ps dm th ph w
    /\ np_sub d (calc2 w') = Some r.
Proof.
  intros Hready H.
  assert (Hp : is_Some (unpack5 p)).
  { destruct (unpack5 p) eqn:E; [by eexists|].
    destruct path; simpl in H; unfold residual_regen, residual_masked in H;
      rewrite E in H; discriminate. }
  destruct Hp as [t Ht].
  apply unpack5_Some in Ht as (o & ps & dm & th & ph & -> & _).
  exists o, ps, dm, th, ph. split; [done|].
  rewrite residual_eq in H by done.
  destruct (np_sub d _) as [r'|] eqn:E; simpl in H; [|discriminate].
  injection H as <- <-. done.
Qed.

(** X1: a residual evaluation leaves nothing that a later one reads: after
    any evaluation that returned, evaluating at [p] gives the same result,
    state or exception as evaluating at [p] directly. *)
Theorem residual_history_free (path : Path) (q dq rq : list R)
    (w wq : Notebook) (p d : list R) :
  ready path w ->
  residual path q dq w = Some (rq, wq) ->
  residual path p d wq = residual path p d w.
Proof.
  intros Hready Hq.
  apply residual_inv in Hq as (o & ps & dm & th & ph & -> & -> & _);
    [|done].
  destruct (unpack5 p) as [t|] eqn:Hp.
  - apply unpack5_Some in Hp as (o' & ps' & dm' & th' & ph' & -> & _).
    rewrite !residual_eq by (try apply ready_state_after; done).
    by rewrite state_after_twice.
  - destruct path; simpl; unfold residual_regen, residual_masked;
      by rewrite Hp.
Qed.

(** X2: the masked residual returns exactly when the parameter vector has
    five entries, both masks have one entry per site, and the observed data
    have the shape of the calculated signal or one of the two has a single
    entry; otherwise it raises. *)
Theorem residual_masked_returns_iff (n : nat) (p d : list R) (w : Notebook) :
  fixed_grid n (mc w) ->
  (is_Some (residual_masked p d w)
   <-> length p = 5%nat
       /\ length (upMask w) = length (spins (mstr w))
       /\ length (downMask w) = length (spins (mstr w))
       /\ (length d = n \/ length d = 1%nat \/ n = 1%nat)).
Proof.
  intros Hgrid. unfold residual_masked.
  destruct (unpack5 p) as [[[[[o ps] dm] th] ph]|] eqn:Hp; simpl.
  2:{ split; [intros [t Ht]; discriminate|].
      intros (Hlen & _). apply unpack5_is_Some in Hlen as [t Ht]. congruence. }
  assert (Hp5 : length p = 5%nat) by (apply unpack5_is_Some; by eexists).
  unfold mask_assign.
  destruct (decide (length (upMask w) = length (spins (mstr w)))) as [Hu|Hu];
    simpl.
  2:{ split; [intros [t Ht]; discriminate | tauto]. }
  rewrite length_zip_with_l_eq by done.
  destruct (decide (length (downMask w) = length (upMask w))) as [Hd|Hd];
    simpl.
  2:{ split; [intros [t Ht]; discriminate|]. intros (_ & _ & Hd' & _).
      congruence. }
  match goal with
  | |- is_Some (np_sub d ?c ≫= _) <-> _ =>
      assert (Hc : length c = n) by (unfold calc2, mc_calc; simpl; apply Hgrid);
      pose proof (np_sub_is_Some d c) as Hsub; rewrite Hc in Hsub;
      destruct (np_sub d c) as [r|]; simpl
  end.
  - split; [intros _|by eexists].
    repeat split; try done; [congruence | apply Hsub; by eexists].
  - split; [intros [t Ht]; discriminate|].
    intros (_ & _ & _ & Hshape). apply Hsub in Hshape as [t Ht]. discriminate.
Qed.

(** X3: the regeneration residual returns exactly when the parameter vector
    has five entries, the species dictionary has the key ['0'], and the
    observed data have the shape of the calculated signal or one of the two
    has a single entry; otherwise it raises. *)
Theorem residual_regen_returns_iff (n : nat) (p d : list R) (w : Notebook) :
  fixed_grid n (mc w) ->
  (is_Some (residual_regen p d w)
   <-> length p = 5%nat
       /\ is_Some (species (mstr w) !! "0")
       /\ (length d = n \/ length d = 1%nat \/ n = 1%nat)).
Proof.
  intros Hgrid. unfold residual_regen.
  destruct (unpack5 p) as [[[[[o ps] dm] th] ph]|] eqn:Hp; simpl.
  2:{ split; [intros [t Ht]; discriminate|].
      intros (Hlen & _). apply unpack5_is_Some in Hlen as [t Ht]. congruence. }
  assert (Hp5 : length p = 5%nat) by (apply unpack5_is_Some; by eexists).
  destruct (species (mstr w) !! "0") as [sp|]; simpl.
  2:{ split; [intros [t Ht]; discriminate|].
      intros (_ & [t Ht] & _). discriminate. }
  match goal with
  | |- is_Some (np_sub d ?c ≫= _) <-> _ =>
      assert (Hc : length c = n) by (unfold calc2, mc_calc; simpl; apply Hgrid);
      pose proof (np_sub_is_Some d c) as Hsub; rewrite Hc in Hsub;
      destruct (np_sub d c) as [r|]; simpl
  end.
  - split; [intros _|by eexists].
    split; [done|]. split; [by eexists|]. apply Hsub. by eexists.
  - split; [intros [t Ht]; discriminate|].
    intros (_ & _ & Hshape). apply Hsub in Hshape as [t Ht]. discriminate.
Qed.

Lemma zip_with_Rminus_zero (d c : list R) :
  length d = length c ->
  (zip_with Rminus d c = replicate (length d) 0 <-> d = c).
Proof.
  revert c. induction d as [|x d IH]; intros [|y c] Hlen; simpl in *;
    try discriminate; [done|].
  injection Hlen as Hlen. specialize (IH c Hlen). split.
  - intros [= Hxy Hrest]. f_equal; [lra | by apply IH].
  - intros [= -> ->]. f_equal; [lra | by apply IH].
Qed.

(** X4: with observed data on the calculator's grid the residual has one
    entry per grid point and is zero everywhere exactly when the observed
    data are the calculated signal; on data that are the signal calculated
    at the same parameters it is zero everywhere. *)
Theorem residual_zero_iff (n : nat) (path : Path) (o ps dm th ph : R)
    (d : list R) (w : Notebook) :
  ready path w -> fixed_grid n (mc w) -> length d = n ->
  exists r w',
    residual path [o; ps; dm; th; ph] d w = Some (r, w')
    /\ length r = n
    /\ (r = replicate n 0 <-> d = calc2 w')
    /\ residual path [o; ps; dm; th; ph] (calc2 w') w
       = Some (replicate n 0, w').
Proof.
  intros Hready Hgrid Hd.
  set (w' := state_after path o ps dm th ph w).
  assert (Hc : length (calc2 w') = n).
  { unfold calc2, mc_calc.
    pose proof (fixed_grid_state_after n path o ps dm th ph w Hgrid) as Hg.
    fold w' in Hg. specialize (Hg (ordScale (mc w')) (paraScale (mc w'))
                                  (dampRate (mc w'))).
    replace (set_scalars _ _ _ (mc w')) with (mc w') in Hg
      by (by destruct (mc w')).
    apply Hg. }
  exists (zip_with Rminus d (calc2 w')), w'.
  split; [by apply (residual_total n)|].
  split; [rewrite length_zip_with_l_eq; congruence|].
  split.
  - rewrite <- Hd. apply zip_with_Rminus_zero. congruence.
  - rewrite (residual_total n) by done. fold w'. f_equal. f_equal.
    rewrite <- Hc. by apply zip_with_Rminus_zero.
Qed.

(** X5: observed data with a single entry are not refused: the entry is
    broadcast, and the residual is that entry minus each point of the
    calculated signal. *)
Theorem residual_broadcast_single (path : Path) (o ps dm th ph y : R)
    (w : Notebook) :
  ready path w ->
  exists w',
    residual path [o; ps; dm; th; ph] [y] w
    = Some ((fun c => y - c) <$> calc2 w', w')
    /\ w' = state_after path o ps dm th ph w.
Proof.
  intros Hready. eexists. split; [|reflexivity].
  rewrite residual_eq by done. by rewrite np_sub_single.
Qed.

End ResidualResults.

(** ** What the mask cell prints *)

Lemma select_rows_complement {A : Type} (up : list bool) (arr : list A) :
  length up = length arr ->
  select_rows up arr ++ select_rows (negb <$> up) arr ≡ₚ arr.
Proof.
  revert arr. induction up as [|m up IH]; intros [|row arr] Hlen;
    simpl in *; try discriminate; [done|].
  injection Hlen as Hlen. destruct m; simpl.
  - by rewrite IH.
  - rewrite <- Permutation_middle. by rewrite IH.
Qed.

Lemma select_rows_test {A : Type} (f : A -> bool) (arr : list A) :
  select_rows (f <$> arr) arr = filter (fun s => f s = true) arr.
Proof.
  induction arr as [|row arr IH]; simpl; [done|].
  rewrite filter_cons, <- IH. by destruct (f row).
Qed.

Lemma select_rows_test_not {A : Type} (f : A -> bool) (arr : list A) :
  select_rows (negb <$> (f <$> arr)) arr = filter (fun s => f s = false) arr.
Proof.
  induction arr as [|row arr IH]; simpl; [done|].
  rewrite filter_cons, <- IH. by destruct (f row).
Qed.

(** X6: after the mask cell, [mstr.spins[upMask]] and
    [mstr.spins[downMask]] are read without an exception; together they hold
    every spin of the structure exactly once, the first only spins at
    distance below 0.1 from the reference vector, the second only spins that
    are not; the cell prints at most the first four rows of each. *)
Theorem masks_select_partition (w : Notebook) :
  exists ups downs,
    mask_select (spins (mstr (make_masks w))) (upMask (make_masks w))
    = Some ups
    /\ mask_select (spins (mstr (make_masks w))) (downMask (make_masks w))
       = Some downs
    /\ print_masks (make_masks w) = Some (take 4 ups, take 4 downs)
    /\ ups ++ downs ≡ₚ spins (mstr w)
    /\ (length ups + length downs = length (spins (mstr w)))%nat
    /\ (forall s, s ∈ ups -> Vec3.norm (Vec3.sub s (svec w)) < 1/10)
    /\ (forall s, s ∈ downs -> ~ Vec3.norm (Vec3.sub s (svec w)) < 1/10).
Proof.
  set (f := fun s => bool_decide (Vec3.norm (Vec3.sub s (svec w)) < 1/10)).
  exists (select_rows (f <$> spins (mstr w)) (spins (mstr w))),
         (select_rows (negb <$> (f <$> spins (mstr w))) (spins (mstr w))).
  assert (Hup : mask_select (spins (mstr (make_masks w)))
                  (upMask (make_masks w))
                = Some (select_rows (f <$> spins (mstr w)) (spins (mstr w)))).
  { unfold mask_select. simpl. rewrite decide_True by (by rewrite length_fmap).
    done. }
  assert (Hdown : mask_select (spins (mstr (make_masks w)))
                    (downMask (make_masks w))
                  = Some (select_rows (negb <$> (f <$> spins (mstr w)))
                            (spins (mstr w)))).
  { unfold mask_select. simpl.
    rewrite decide_True by (by rewrite !length_fmap). done. }
  assert (Hperm : select_rows (f <$> spins (mstr w)) (spins (mstr w))
                  ++ select_rows (negb <$> (f <$> spins (mstr w)))
                       (spins (mstr w))
                  ≡ₚ spins (mstr w))
    by (apply select_rows_complement; by rewrite length_fmap).
  split; [done|]. split; [done|].
  split; [unfold print_masks; by rewrite Hup, Hdown|].
  split; [done|].
  split; [by rewrite <- length_app, Hperm|].
  split.
  - intros s. rewrite select_rows_test, list_elem_of_filter.
    intros [Hs _]. unfold f in Hs. by apply bool_decide_eq_true in Hs.
  - intros s. rewrite select_rows_test_not, list_elem_of_filter.
    intros [Hs _]. unfold f in Hs. by apply bool_decide_eq_false in Hs.
Qed.

(** ** The masked residual against the regeneration residual *)

Lemma norm_opp (v : vec3) : Vec3.norm (Vec3.opp v) = Vec3.norm v.
Proof.
  rewrite <- Vec3Facts.scale_m1, Vec3Facts.norm_scale, Rabs_left by lra. lra.
Qed.

Section Collinearity.
Context `{D : Diffpy}.

(** X7: the two residuals write the same spin array only on a two-domain
    collinear structure: after an evaluation of each at the same parameters,
    the spin arrays are equal exactly when every reference spin is plus or
    minus the reference vector. *)
Theorem masked_agrees_iff_collinear (sites : list vec3) (c0 : MPDFcalculator)
    (xi1 xi2 : R) (wr wm wr' wm' : Notebook) (p d d' r r' : list R) :
  let w0 := make_structure sites c0 xi1 xi2 in
  reachable Regeneration w0 wr ->
  reachable Masked (make_masks w0) wm ->
  residual_regen p d wr = Some (r, wr') ->
  residual_masked p d' wm = Some (r', wm') ->
  (spins (mstr wr') = spins (mstr wm')
   <-> forall s, s ∈ spins (mstr w0) ->
         s = svec w0 \/ s = Vec3.opp (svec w0)).
Proof.
  intros w0 Hr Hm Hres Hres'.
  pose proof (make_structure_fields sites c0 xi1 xi2) as Hfields.
  cbv zeta in Hfields. fold w0 in Hfields. clearbody w0.
  destruct Hfields as (Hsvec & Hspecies & Hatoms & Hspins & Hmc).
  set (k := Vec3.mk (1/2) (1/2) (1/2)) in *.
  set (msp := mkSpecies (svec w0) k sites "0") in *.
  assert (Hunit : Vec3.norm (svec w0) = 1)
    by (rewrite Hsvec; apply newsvec_norm).
  assert (Hsq : Vec3.x (svec w0) * Vec3.x (svec w0)
                + Vec3.y (svec w0) * Vec3.y (svec w0)
                + Vec3.z (svec w0) * Vec3.z (svec w0) = 1)
    by (rewrite Hsvec; apply newsvec_sqnorm).
  apply (reachable_regen msp) in Hr as ([b Hb] & _); [|done].
  apply reachable_masked in Hm as (Hok & Hup & _);
    [|apply masked_ok_make_masks].
  apply residual_regen_inv in Hres
    as (o & ps & dm & th & ph & sp & -> & Hsp & ->).
  apply residual_masked_inv in Hres'
    as (o' & ps' & dm' & th' & ph' & Hp & ->); [|done].
  injection Hp as <- <- <- <- <-.
  rewrite Hb, lookup_singleton_eq in Hsp. injection Hsp as <-.
  set (v := newsvec th ph).
  assert (Hwr : spins (mstr (regen_state o ps dm th ph (set_basisvecs b msp) wr))
                = (fun x => Vec3.scale (phasefac k x) v) <$> sites).
  { unfold regen_state. cbn [mstr].
    rewrite (makeSpins_single (set_basisvecs v msp)); [done|].
    simpl. by rewrite Hb, insert_singleton_eq. }
  assert (Hwm : spins (mstr (masked_state o ps dm th ph wm))
                = (fun x => if bool_decide
                                 (Vec3.norm (Vec3.sub
                                    (Vec3.scale (phasefac k x) (svec w0))
                                    (svec w0)) < 1/10)
                            then v else Vec3.opp v) <$> sites).
  { unfold masked_state. cbn [mstr spins set_spins]. rewrite Hup.
    unfold masked_spins. cbn [upMask make_masks]. rewrite Hspins.
    unfold species_spins. cbn [kvecs basisvecs magatoms msp].
    by rewrite <- !list_fmap_compose. }
  rewrite Hwr, Hwm, Hspins. unfold species_spins.
  cbn [kvecs basisvecs magatoms msp].
  assert (Hv : Vec3.x v * Vec3.x v + Vec3.y v * Vec3.y v
               + Vec3.z v * Vec3.z v = 1) by apply newsvec_sqnorm.
  split.
  - intros Heq s Hs.
    apply list_elem_of_fmap in Hs as (x & -> & Hx).
    apply list_elem_of_lookup in Hx as [i Hi].
    apply (f_equal (fun l => l !! i)) in Heq.
    rewrite !list_lookup_fmap, Hi in Heq. simpl in Heq. injection Heq as Heq.
    assert (Hc : phasefac k x = 1 \/ phasefac k x = -1).
    { apply (scale_unit_cases _ v Hv).
      destruct (bool_decide _) in Heq; [by left | by right]. }
    destruct Hc as [-> | ->];
      [left; apply Vec3Facts.scale_1 | right; apply Vec3Facts.scale_m1].
  - intros Hcol. apply list_fmap_ext. intros i x Hi.
    assert (Hc : phasefac k x = 1 \/ phasefac k x = -1).
    { apply (scale_unit_cases _ (svec w0) Hsq). apply Hcol.
      apply list_elem_of_fmap. exists x. split; [done|].
      by apply list_elem_of_lookup_2 in Hi. }
    destruct Hc as [-> | ->].
    + by rewrite near_reference, Vec3Facts.scale_1.
    + by rewrite far_from_reference, Vec3Facts.scale_m1.
Qed.

(** X8: the masked residual does not keep the magnitudes of the spins: after
    an evaluation the spin array has as many rows as before and every row is
    a unit vector, whatever the spins were. *)
Theorem masked_spins_are_unit (p d r : list R) (w w' : Notebook) :
  masked_ok w ->
  residual_masked p d w = Some (r, w') ->
  length (spins (mstr w')) = length (spins (mstr w))
  /\ forall s, s ∈ spins (mstr w') -> Vec3.norm s = 1.
Proof.
  intros Hok Hres.
  apply residual_masked_inv in Hres as (o & ps & dm & th & ph & -> & ->);
    [|done].
  simpl. unfold masked_spins. split.
  - rewrite length_fmap. apply Hok.
  - intros s Hs. apply list_elem_of_fmap in Hs as ([|] & -> & _).
    + apply newsvec_norm.
    + rewrite norm_opp. apply newsvec_norm.
Qed.

End Collinearity.

(** ** The random starting direction *)

(** X9: drawing the polar angle as arccos of a uniform draw makes the
    height of the direction vector that draw: the starting direction of the
    structure cell, and the direction of the initial parameter vector, is
    (sqrt(1-u^2) cos phi, sqrt(1-u^2) sin phi, u) for the draws u from [-1,1)
    and phi from [-PI,PI); the polar angle is never 0. *)
Theorem direction_height_is_uniform (xi1 xi2 : R) (sites : list vec3)
    (c0 : MPDFcalculator) `{D : Diffpy} :
  0 <= xi1 < 1 ->
  let u := uniform (-1) 1 xi1 in
  let phi := uniform (- PI) PI xi2 in
  let v := Vec3.mk (sqrt (1 - u * u) * cos phi) (sqrt (1 - u * u) * sin phi) u in
  svec (make_structure sites c0 xi1 xi2) = v
  /\ (exists th, p0 xi1 xi2 = [1/10; 1/10; 1/10; th; phi]
                 /\ newsvec th phi = v /\ 0 < th <= PI).
Proof.
  intros Hxi u phi v.
  assert (Hu : -1 <= u < 1) by (unfold u, uniform; lra).
  assert (Hdir : newsvec (acos u) phi = v).
  { unfold newsvec, v. rewrite cos_acos, sin_acos by lra. done. }
  split; [exact Hdir|].
  exists (acos u). split; [done|]. split; [done|].
  pose proof (acos_bound u) as [H0 Hpi]. split; [|done].
  destruct H0 as [H0|H0]; [done|].
  exfalso. pose proof (cos_acos u) as Hc. rewrite <- H0, cos_0 in Hc. lra.
Qed.

(** ** The atoms of the visualising cell *)

(** X10: the visualising cell builds four blocks of atoms from the first
    (at most four) atoms of the structure, and the fourth block repeats the
    second, both being the cell shifted by (0,0,1): the list is never free
    of duplicates unless the structure is empty. *)
Theorem visatoms_repeats_block (struc_xyz : list vec3)
    (cartesian : vec3 -> vec3) :
  let n := Nat.min 4 (length struc_xyz) in
  length (visatoms struc_xyz cartesian) = (4 * n)%nat
  /\ (forall i, (i < n)%nat ->
        exists a, visatoms struc_xyz cartesian !! (n + i)%nat = Some a
                  /\ visatoms struc_xyz cartesian !! (3 * n + i)%nat = Some a)
  /\ (struc_xyz <> [] -> ~ NoDup (visatoms struc_xyz cartesian)).
Proof.
  intros n. unfold visatoms.
  set (uc := take 4 struc_xyz).
  assert (Hn : length uc = n) by apply length_take.
  set (s1 := (fun r => vec3_add r (Vec3.mk 0 0 1)) <$> uc).
  set (s2 := (fun r => vec3_add r (Vec3.mk 0 1 0)) <$> uc).
  assert (H1 : length s1 = n) by (unfold s1; by rewrite length_fmap).
  assert (H2 : length s2 = n) by (unfold s2; by rewrite length_fmap).
  assert (Hdup : forall i, (i < n)%nat ->
            exists a, (cartesian <$> uc ++ s1 ++ s2 ++ s1) !! (n + i)%nat
                      = Some a
                      /\ (cartesian <$> uc ++ s1 ++ s2 ++ s1) !! (3 * n + i)%nat
                         = Some a).
  { intros i Hi.
    destruct (lookup_lt_is_Some_2 s1 i) as [a Ha]; [lia|].
    exists (cartesian a). rewrite !list_lookup_fmap. split.
    - rewrite lookup_app_r by lia. rewrite lookup_app_l by lia.
      replace (n + i - length uc)%nat with i by lia. by rewrite Ha.
    - rewrite lookup_app_r by lia. rewrite lookup_app_r by lia.
      rewrite lookup_app_r by lia.
      replace (3 * n + i - length uc - length s1 - length s2)%nat
        with i by lia.
      by rewrite Ha. }
  split; [|split].
  - rewrite length_fmap, !length_app. lia.
  - exact Hdup.
  - intros Hne Hnodup.
    assert (Hpos : (0 < n)%nat).
    { unfold n. destruct struc_xyz; [done|]. simpl. lia. }
    destruct (Hdup 0%nat Hpos) as (a & Ha & Hb).
    pose proof (NoDup_lookup _ _ _ _ Hnodup Ha Hb). lia.
Qed.

(** ** Regeneration: [makeSpins], [makeAll] and [mpdf] *)

Section Regeneration.
Context `{D : Diffpy}.

Lemma makeAll_single (sp : MagSpecies) (ms : MagStructure) :
  species ms = {["0" := sp]} ->
  makeAll ms = mkStructure {["0" := sp]} (magatoms sp) (species_spins sp).
Proof.
  intros Hsp. unfold makeAll, makeSpins, makeAtoms, set_spins. simpl.
  rewrite Hsp, !map_to_list_singleton. simpl. by rewrite !app_nil_r.
Qed.

Lemma reachable_regen_made (sites : list vec3) (c0 : MPDFcalculator)
    (xi1 xi2 : R) (w : Notebook) :
  reachable Regeneration (make_structure sites c0 xi1 xi2) w ->
  exists sp, species (mstr w) = {["0" := sp]}
             /\ magatoms sp = sites
             /\ mstr w = mkStructure {["0" := sp]} sites (species_spins sp).
Proof.
  destruct (make_structure_fields sites c0 xi1 xi2)
    as (Hsvec & Hspecies & Hatoms & Hspins & Hmc).
  set (w0 := make_structure sites c0 xi1 xi2) in *. clearbody w0.
  set (msp := mkSpecies (svec w0) (Vec3.mk (1/2) (1/2) (1/2)) sites "0") in *.
  induction 1 as [|w p d r w' Hreach IH Hstep].
  - exists msp. split; [done|]. split; [done|].
    destruct (mstr w0) as [s a sp]. simpl in *. by subst.
  - destruct IH as (sp & Hsp & Hsites & Hm). simpl in Hstep.
    apply residual_regen_inv in Hstep
      as (o & ps & dm & th & ph & sp' & -> & Hlook & ->).
    rewrite Hsp, lookup_singleton_eq in Hlook. injection Hlook as <-.
    exists (set_basisvecs (newsvec th ph) sp).
    unfold regen_state. cbn [mstr]. rewrite Hsp, insert_singleton_eq.
    split; [done|]. split; [done|].
    unfold makeSpins, set_spins, set_species. simpl.
    rewrite map_to_list_singleton. simpl. rewrite app_nil_r.
    rewrite Hm. simpl. done.
Qed.

(** X11: in every state of the regeneration notebook, before and after any
    evaluations, the atom and spin arrays are the ones the species generate:
    [makeAll] changes nothing, and every spin is the current basis vector
    times the phase factor of its site. *)
Theorem regen_arrays_are_generated (sites : list vec3) (c0 : MPDFcalculator)
    (xi1 xi2 : R) (w : Notebook) :
  reachable Regeneration (make_structure sites c0 xi1 xi2) w ->
  makeAll (mstr w) = mstr w
  /\ atoms (mstr w) = sites
  /\ exists sp, species (mstr w) !! "0" = Some sp
       /\ spins (mstr w)
          = (fun x => Vec3.scale (phasefac (kvecs sp) x) (basisvecs sp))
              <$> sites.
Proof.
  intros Hreach.
  apply reachable_regen_made in Hreach as (sp & Hsp & Hsites & Hm).
  split; [|split].
  - rewrite (makeAll_single sp) by done. rewrite Hm. by rewrite Hsites.
  - by rewrite Hm.
  - exists sp. split; [by rewrite Hsp, lookup_singleton_eq|].
    rewrite Hm. simpl. unfold species_spins. by rewrite Hsites.
Qed.

(** X12: the regeneration residual computes what [mpdf] computes: after an
    evaluation at (oscale, pscale, damp, th, phi), a call
    [mpdf(pscale, oscale, damp)], the scalars in [mpdf]'s own order,
    changes nothing and returns the signal that was subtracted from the
    observed data. *)
Theorem regen_residual_is_mpdf (sites : list vec3) (c0 : MPDFcalculator)
    (xi1 xi2 : R) (w w' : Notebook) (oscale pscale damp th phi : R)
    (d r : list R) :
  reachable Regeneration (make_structure sites c0 xi1 xi2) w ->
  residual_regen [oscale; pscale; damp; th; phi] d w = Some (r, w') ->
  (mpdf pscale oscale damp w').2 = w'
  /\ np_sub d (mpdf pscale oscale damp w').1 = Some r.
Proof.
  intros Hreach Hres.
  assert (Hreach' : reachable Regeneration (make_structure sites c0 xi1 xi2) w')
    by (eapply reach_eval; [exact Hreach | exact Hres]).
  apply reachable_regen_made in Hreach' as (sp' & Hsp' & Hsites' & Hm').
  assert (Hall : makeAll (mstr w') = mstr w').
  { rewrite (makeAll_single sp') by done. rewrite Hm'. by rewrite Hsites'. }
  apply reachable_regen_made in Hreach as (sp & Hsp & _).
  apply (residual_inv Regeneration) in Hres
    as (o & ps & dm & th' & ph' & Hp & Hw' & Hsub);
    [|simpl; rewrite Hsp, lookup_singleton_eq; by eexists].
  injection Hp as <- <- <- <- <-.
  assert (Hmc : set_scalars oscale pscale damp (mc w') = mc w').
  { rewrite Hw'. simpl. rewrite Hsp, lookup_singleton_eq. done. }
  assert (Hfix : mpdf pscale oscale damp w' = (calc2 w', w')).
  { unfold mpdf. rewrite Hall, Hmc. by destruct w'. }
  rewrite Hfix. simpl. done.
Qed.

(** X13: the masked residual never updates the basis vector: in every state
    of the masked notebook the species ['0'] still has the reference vector
    as its basis vector, so that [makeSpins], and [mpdf] through [makeAll],
    put back the reference spins whatever direction was evaluated last. *)
Theorem masked_keeps_reference_basis (sites : list vec3) (c0 : MPDFcalculator)
    (xi1 xi2 : R) (w : Notebook) :
  let w0 := make_structure sites c0 xi1 xi2 in
  reachable Masked (make_masks w0) w ->
  basisvecs <$> species (mstr w) !! "0" = Some (svec w0)
  /\ spins (makeSpins (mstr w)) = spins (mstr w0)
  /\ (forall parascale ordscale damp,
        spins (mstr (mpdf parascale ordscale damp w).2) = spins (mstr w0)).
Proof.
  intros w0 Hreach.
  pose proof (make_structure_fields sites c0 xi1 xi2) as Hfields.
  cbv zeta in Hfields. fold w0 in Hfields. clearbody w0.
  destruct Hfields as (Hsvec & Hspecies & Hatoms & Hspins & Hmc).
  apply reachable_masked in Hreach as (_ & _ & _ & _ & Hsp & _);
    [|apply masked_ok_make_masks].
  simpl in Hsp. rewrite Hspecies in Hsp.
  split; [by rewrite Hsp, lookup_singleton_eq|].
  split.
  - rewrite (makeSpins_single _ _ Hsp). by rewrite Hspins.
  - intros a b c. unfold mpdf. cbn [mstr snd].
    rewrite (makeAll_single _ _ Hsp). simpl. by rewrite Hspins.
Qed.

(** X14: what the regeneration residual leaves alone: every species other
    than ['0'], the propagation vector, atoms and label of the species
    ['0'], the atom array, the reference vector, the masks and the
    calculator's range. *)
Theorem regen_frame (p d r : list R) (w w' : Notebook) :
  residual_regen p d w = Some (r, w') ->
  (forall key, key <> "0" ->
     species (mstr w') !! key = species (mstr w) !! key)
  /\ (exists sp sp',
        species (mstr w) !! "0" = Some sp
        /\ species (mstr w') !! "0" = Some sp'
        /\ kvecs sp' = kvecs sp /\ magatoms sp' = magatoms sp
        /\ label sp' = label sp)
  /\ dom (species (mstr w')) = dom (species (mstr w))
  /\ atoms (mstr w') = atoms (mstr w)
  /\ svec w' = svec w /\ upMask w' = upMask w /\ downMask w' = downMask w
  /\ rmin (mc w') = rmin (mc w) /\ rmax (mc w') = rmax (mc w).
Proof.
  intros Hres.
  apply residual_regen_inv in Hres
    as (o & ps & dm & th & ph & sp & -> & Hsp & ->).
  simpl. split; [|split; [|split]].
  - intros key Hkey. by rewrite lookup_insert_ne.
  - exists sp, (set_basisvecs (newsvec th ph) sp).
    rewrite lookup_insert_eq. done.
  - rewrite dom_insert_L. apply elem_of_dom_2 in Hsp. set_solver.
  - done.
Qed.

End Regeneration.

(** ** The driver on data off the grid *)

Section OffGrid.
Context `{D : Diffpy} `{S : Scipy}.

Lemma residual_off_grid_raises (n : nat) (path : Path) (p d : list R)
    (w : Notebook) :
  fixed_grid n (mc w) ->
  length d <> n -> length d <> 1%nat -> n <> 1%nat ->
  residual path p d w = None.
Proof.
  intros Hgrid Hn H1 Hn1.
  assert (Hsub : forall w', mc w' = set_scalars (ordScale (mc w'))
                                      (paraScale (mc w')) (dampRate (mc w'))
                                      (mc w) ->
                            np_sub d (calc2 w') = None).
  { intros w' Hmc.
    destruct (np_sub d (calc2 w')) eqn:E; [|done].
    assert (Hs : is_Some (np_sub d (calc2 w'))) by (by eexists).
    apply np_sub_is_Some in Hs. unfold calc2, mc_calc in Hs.
    rewrite Hmc, Hgrid in Hs. lia. }
  destruct path; simpl.
  - unfold residual_regen.
    destruct (unpack5 p) as [[[[[o ps] dm] th] ph]|]; simpl; [|done].
    destruct (species (mstr w) !! "0") as [sp|]; simpl; [|done].
    by rewrite Hsub.
  - unfold residual_masked.
    destruct (unpack5 p) as [[[[[o ps] dm] th] ph]|]; simpl; [|done].
    destruct (mask_assign _ (upMask w) _) as [s1|]; simpl; [|done].
    destruct (mask_assign s1 _ _) as [s2|]; simpl; [|done].
    by rewrite Hsub.
Qed.

(** X15: observed data that are off the calculator's grid are fatal to the
    fit as soon as the solver asks for one residual: the driver raises and
    no fitted signal is computed; a solver that asks for none returns, and
    the fitted signal is the one of the starting state. *)
Theorem fit_off_grid (n : nat) (path : Path) (xi1 xi2 : R) (d : list R)
    (w : Notebook) :
  fixed_grid n (mc w) ->
  length d <> n -> length d <> 1%nat -> n <> 1%nat ->
  match least_squares (p0 xi1 xi2) lower_bounds upper_bounds with
  | Evaluate _ _ => run_fit path xi1 xi2 d w = None
  | Converged xopt => run_fit path xi1 xi2 d w = Some (xopt, calc2 w, w)
  end.
Proof.
  intros Hgrid Hn H1 Hn1. unfold run_fit.
  destruct (least_squares _ _ _) as [xopt|p next]; [done|].
  simpl. by rewrite (residual_off_grid_raises n).
Qed.

End OffGrid.

(** ** The baseline of the co-refinement's plot *)

Lemma np_min_spec (a : list R) (m : R) :
  np_min a = Some m -> m ∈ a /\ forall g, g ∈ a -> m <= g.
Proof.
  destruct a as [|a0 a]; [discriminate|]. simpl. intros [= <-].
  induction a as [|a1 a IH]; simpl.
  - split; [apply list_elem_of_here|].
    intros g Hg. apply list_elem_of_singleton in Hg as ->. lra.
  - destruct IH as [Hin Hle]. split.
    + unfold Rmin at 1. destruct (Rle_dec a1 (foldr Rmin a0 a)).
      * apply list_elem_of_further, list_elem_of_here.
      * apply elem_of_cons in Hin as [->|Hin];
          [apply list_elem_of_here
          | by apply list_elem_of_further, list_elem_of_further].
    + intros g Hg. pose proof (Rmin_l a1 (foldr Rmin a0 a)).
      pose proof (Rmin_r a1 (foldr Rmin a0 a)).
      apply elem_of_cons in Hg as [->|Hg].
      * specialize (Hle a0 (list_elem_of_here _ _)). lra.
      * apply elem_of_cons in Hg as [->|Hg]; [lra|].
        specialize (Hle g (list_elem_of_further _ _ _ Hg)). lra.
Qed.

(** X16: the baseline [1.1 * gobs.min()] raises on empty data; otherwise it
    lies at or below every observed value exactly when the smallest observed
    value is not positive: under data that are positive throughout it lies
    above their minimum. *)
Theorem baseline_below_data (gobs : list R) :
  baseline [] = None
  /\ (gobs <> [] ->
      exists m b, np_min gobs = Some m /\ baseline gobs = Some b
        /\ m ∈ gobs
        /\ ((forall g, g ∈ gobs -> b <= g) <-> m <= 0)).
Proof.
  split; [done|]. intros Hne.
  destruct (np_min gobs) as [m|] eqn:Hm; [|by destruct gobs].
  exists m, (11/10 * m). unfold baseline. rewrite Hm.
  destruct (np_min_spec _ _ Hm) as [Hin Hle].
  split; [done|]. split; [done|]. split; [done|]. split.
  - intros Hb. specialize (Hb m Hin). lra.
  - intros Hneg g Hg. specialize (Hle g Hg). lra.
Qed.

(** ** The further properties on the toy antiferromagnet *)

Lemma toy_regen_eval :
  residual_regen (D := Toy.diffpy) [1; 1; 0; 1; 1/2] [0; 0] Toy.start
  = Some (zip_with Rminus [0; 0]
            (calc2 (D := Toy.diffpy)
               (regen_state (D := Toy.diffpy) 1 1 0 1 (1/2)
                  (mkSpecies (svec Toy.start) (Vec3.mk (1/2) (1/2) (1/2))
                             Toy.sites "0") Toy.start)),
          regen_state (D := Toy.diffpy) 1 1 0 1 (1/2)
            (mkSpecies (svec Toy.start) (Vec3.mk (1/2) (1/2) (1/2))
                       Toy.sites "0") Toy.start).
Proof.
  apply (residual_regen_total (D := Toy.diffpy) 2).
  - rewrite toy_species. apply lookup_singleton_eq.
  - apply toy_fixed_grid.
  - reflexivity.
Qed.

Lemma toy_masked_eval :
  residual_masked (D := Toy.diffpy) [1; 1; 0; 1; 1/2] [0; 0]
    (make_masks Toy.start)
  = Some (zip_with Rminus [0; 0]
            (calc2 (D := Toy.diffpy)
               (masked_state 1 1 0 1 (1/2) (make_masks Toy.start))),
          masked_state 1 1 0 1 (1/2) (make_masks Toy.start)).
Proof.
  apply (residual_masked_total (D := Toy.diffpy) 2).
  - apply masked_ok_make_masks.
  - apply toy_fixed_grid.
  - reflexivity.
Qed.

Lemma residual_history_free_witness :
  residual (D := Toy.diffpy) Masked [1; 1; 0; 1; 1/2] [0; 0]
    (masked_state 2 3 0 0 0 Toy.two_site)
  = residual (D := Toy.diffpy) Masked [1; 1; 0; 1; 1/2] [0; 0] Toy.two_site.
Proof.
  eapply (residual_history_free (D := Toy.diffpy) Masked [2; 3; 0; 0; 0]
            [0; 0] _ Toy.two_site).
  - split; reflexivity.
  - reflexivity.
Defined.

Lemma residual_masked_returns_iff_witness :
  is_Some (residual_masked (D := Toy.diffpy) [1; 1; 0; 0; 0] [0; 0; 0]
             Toy.two_site)
  <-> length [1; 1; 0; 0; 0] = 5%nat
      /\ length (upMask Toy.two_site) = length (spins (mstr Toy.two_site))
      /\ length (downMask Toy.two_site) = length (spins (mstr Toy.two_site))
      /\ (length [0; 0; 0] = 2%nat \/ length [0; 0; 0] = 1%nat
          \/ 2%nat = 1%nat).
Proof.
  apply (residual_masked_returns_iff (D := Toy.diffpy) 2). apply toy_fixed_grid.
Defined.

Lemma residual_regen_returns_iff_witness :
  is_Some (residual_regen (D := Toy.diffpy) [1; 1; 0; 0; 0] [0; 0]
             Toy.two_site)
  <-> length [1; 1; 0; 0; 0] = 5%nat
      /\ is_Some (species (mstr Toy.two_site) !! "0")
      /\ (length [0; 0] = 2%nat \/ length [0; 0] = 1%nat \/ 2%nat = 1%nat).
Proof.
  apply (residual_regen_returns_iff (D := Toy.diffpy) 2). apply toy_fixed_grid.
Defined.

Lemma residual_zero_iff_witness :
  exists r w',
    residual (D := Toy.diffpy) Masked [1; 1; 0; 0; 0] [0; 1] Toy.two_site
    = Some (r, w')
    /\ residual (D := Toy.diffpy) Masked [1; 1; 0; 0; 0]
         (calc2 (D := Toy.diffpy) w') Toy.two_site
       = Some (replicate 2 0, w').
Proof.
  destruct (residual_zero_iff (D := Toy.diffpy) 2 Masked 1 1 0 0 0 [0; 1]
              Toy.two_site) as (r & w' & Hres & _ & _ & Hzero).
  - split; reflexivity.
  - apply toy_fixed_grid.
  - reflexivity.
  - exists r, w'. auto.
Defined.

Lemma residual_broadcast_single_witness :
  exists w',
    residual (D := Toy.diffpy) Masked [1; 1; 0; 0; 0] [5] Toy.two_site
    = Some ((fun c => 5 - c) <$> calc2 (D := Toy.diffpy) w', w').
Proof.
  destruct (residual_broadcast_single (D := Toy.diffpy) Masked 1 1 0 0 0 5
              Toy.two_site) as (w' & Hres & _).
  - split; reflexivity.
  - exists w'. exact Hres.
Defined.

Lemma masked_agrees_iff_collinear_witness :
  spins (mstr (regen_state (D := Toy.diffpy) 1 1 0 1 (1/2)
                 (mkSpecies (svec Toy.start) (Vec3.mk (1/2) (1/2) (1/2))
                            Toy.sites "0") Toy.start))
  = spins (mstr (masked_state 1 1 0 1 (1/2) (make_masks Toy.start)))
  <-> forall s, s ∈ spins (mstr Toy.start) ->
        s = svec Toy.start \/ s = Vec3.opp (svec Toy.start).
Proof.
  eapply (masked_agrees_iff_collinear (D := Toy.diffpy) Toy.sites Toy.c0
            (1/2) (1/2) Toy.start (make_masks Toy.start)).
  - apply reach_start.
  - apply reach_start.
  - apply toy_regen_eval.
  - apply toy_masked_eval.
Defined.

Lemma masked_spins_are_unit_witness :
  length (spins (mstr (masked_state 1 1 0 1 (1/2) Toy.two_site)))
  = length (spins (mstr Toy.two_site))
  /\ Forall (fun s => Vec3.norm s = 1)
            (spins (mstr (masked_state 1 1 0 1 (1/2) Toy.two_site))).
Proof.
  destruct (masked_spins_are_unit (D := Toy.diffpy) [1; 1; 0; 1; 1/2] [0; 0]
              (zip_with Rminus [0; 0]
                 (calc2 (D := Toy.diffpy)
                    (masked_state 1 1 0 1 (1/2) Toy.two_site)))
              Toy.two_site (masked_state 1 1 0 1 (1/2) Toy.two_site))
    as [Hlen Hunit].
  - split; reflexivity.
  - reflexivity.
  - split; [exact Hlen|]. apply Forall_forall. exact Hunit.
Defined.

Lemma direction_height_is_uniform_witness :
  Vec3.z (svec Toy.start) = uniform (-1) 1 (1/2).
Proof.
  destruct (direction_height_is_uniform (1/2) (1/2) Toy.sites Toy.c0
              (D := Toy.diffpy)) as [Hs _]; [lra|].
  unfold Toy.start. rewrite Hs. reflexivity.
Defined.

Lemma regen_arrays_are_generated_witness :
  makeAll (D := Toy.diffpy) (mstr Toy.start) = mstr Toy.start.
Proof.
  apply (regen_arrays_are_generated (D := Toy.diffpy) Toy.sites Toy.c0
           (1/2) (1/2) Toy.start).
  apply reach_start.
Defined.

Lemma regen_residual_is_mpdf_witness :
  exists r w',
    residual_regen (D := Toy.diffpy) [1; 1; 0; 1; 1/2] [0; 0] Toy.start
    = Some (r, w')
    /\ (mpdf (D := Toy.diffpy) 1 1 0 w').2 = w'
    /\ np_sub [0; 0] (mpdf (D := Toy.diffpy) 1 1 0 w').1 = Some r.
Proof.
  eexists _, _. split; [apply toy_regen_eval|].
  eapply (regen_residual_is_mpdf (D := Toy.diffpy) Toy.sites Toy.c0
            (1/2) (1/2) Toy.start).
  - apply reach_start.
  - apply toy_regen_eval.
Defined.

Lemma masked_keeps_reference_basis_witness :
  spins (makeSpins (D := Toy.diffpy)
           (mstr (masked_state 1 1 0 1 (1/2) (make_masks Toy.start))))
  = spins (mstr Toy.start).
Proof.
  apply (masked_keeps_reference_basis (D := Toy.diffpy) Toy.sites Toy.c0
           (1/2) (1/2) (masked_state 1 1 0 1 (1/2) (make_masks Toy.start))).
  eapply reach_eval; [apply reach_start|]. apply toy_masked_eval.
Defined.

Lemma regen_frame_witness :
  atoms (mstr (regen_state (D := Toy.diffpy) 1 1 0 1 (1/2)
                 (mkSpecies (svec Toy.start) (Vec3.mk (1/2) (1/2) (1/2))
                            Toy.sites "0") Toy.start))
  = atoms (mstr Toy.start).
Proof.
  eapply (regen_frame (D := Toy.diffpy) [1; 1; 0; 1; 1/2] [0; 0] _ Toy.start).
  apply toy_regen_eval.
Defined.

Lemma fit_off_grid_witness :
  run_fit (D := Toy.diffpy) (S := Toy.scipy Toy.step) Masked (1/2) (1/2)
    [0; 0; 0] Toy.two_site = None.
Proof.
  apply (fit_off_grid (D := Toy.diffpy) (S := Toy.scipy Toy.step) 2 Masked
           (1/2) (1/2) [0; 0; 0] Toy.two_site).
  - apply toy_fixed_grid.
  - simpl. lia.
  - simpl. lia.
  - lia.
Defined.
